(** * Angular tooling: XLIFF 2 translation serializer and template position resolver

    Two components are embedded here.

    - [Xliff2]: the translation serializer of
      [packages/localize/src/tools/src/extract/translation_files/xliff2_translation_serializer.ts],
      translated method by method.  Its collaborators [XmlFile],
      [extractIcuPlaceholders] and [relative] live in other files; [XmlFile] is
      represented by the sequence of calls made on it and the two functions are
      section variables.

    - [HybridVisitor]: the position resolver [findNodeAtPosition] exercised by
      [packages/language-service/ivy/test/hybrid_visitor_spec.ts].  Only the
      test-suite of the resolver is available, so the resolver is modelled from
      its written specification, and from the tests where they show what the
      code does.

    [Xliff2Output] reads the calls of a run of the serializer back (placeholder
    ids, texts, notes, nesting of the elements), and [HybridVisitorSpec] is the
    helper [parse] of the test-suite, which places the cursor. *)

From Stdlib Require Import ZArith List String Ascii Bool Lia DecimalString.
From Stdlib Require DecimalPos DecimalN DecimalFacts Finite.
From stdpp Require Import base option list strings gmap.

Local Open Scope string_scope.
Local Open Scope Z_scope.

#[local] Set Warnings "-register-all".

(** ** JavaScript values as far as the serializer uses them

    A JavaScript string is a [string]; its characters stand for the code units
    that [length] counts and that a character class tests. *)

Module Js.

(** The values that flow through [a || b && c || d] in [getMessageId]. *)
Inductive value : Type :=
| Undefined
| Bool (b : bool)
| Str (s : string).

(** ToBoolean: [undefined], [false] and the empty string are falsy. *)
Definition truthy (v : value) : bool :=
  match v with
  | Undefined => false
  | Bool b => b
  | Str s => negb (String.eqb s "")
  end.

(** [a || b]: the right operand is only evaluated when [a] is falsy. *)
Definition or (a : value) (b : unit -> value) : value :=
  if truthy a then a else b tt.

(** [a && b]: the right operand is only evaluated when [a] is truthy. *)
Definition and (a : value) (b : unit -> value) : value :=
  if truthy a then b tt else a.

(** An optional string property ([string | undefined]). *)
Definition ofOption (o : option string) : value :=
  match o with
  | Some s => Str s
  | None => Undefined
  end.

(** [Array.prototype.find]: the first element satisfying the predicate. *)
Fixpoint find {A : Type} (p : A -> bool) (l : list A) : option A :=
  match l with
  | [] => None
  | x :: rest => if p x then Some x else find p rest
  end.

(** [String.prototype.startsWith]. *)
Definition startsWith (s prefix : string) : bool := String.prefix prefix s.

(** Template-literal rendering of a non-negative integer. *)
Definition showN (n : N) : string := NilZero.string_of_uint (N.to_uint n).

(** Template-literal rendering of an integer. *)
Definition showZ (z : Z) : string := NilZero.string_of_int (Z.to_int z).

(** [arr[i]]: [undefined] ([None]) outside the array. *)
Definition index {A : Type} (l : list A) (i : Z) : option A :=
  if i <? 0 then None else l !! Z.to_nat i.

End Js.

(** ** [XmlFile], as seen from the serializer

    The class is defined in [./xml_file]; the serializer only calls
    [startTag], [endTag] and [text] on it and finally [toString].  An [XmlFile]
    is represented by the calls the serializer has made on it, oldest first.

    The class keeps the elements that are open and raises an error in [endTag]
    when the tag is not the innermost of them.  The record of the calls does
    not raise: it tells what the serializer asks of the file, and
    [Xliff2Output.openElements] below tells whether the file takes the calls.
    A run stands for a run of the serializer on the class when the file takes
    its calls; the statements that a method returns say so. *)

Module XmlFile.

(** The options object [{selfClosing?, preserveWhitespace?}]. *)
Record Options : Type := mkOptions {
  selfClosing : option bool;
  preserveWhitespace : option bool
}.

(** The default argument [{}]. *)
Definition noOptions : Options := mkOptions None None.

Inductive call : Type :=
| startTag (name : string) (attributes : list (string * string)) (options : Options)
| endTag (name : string) (options : Options)
| text (str : string).

End XmlFile.

(** ** The XLIFF 2 serializer *)

Module Xliff2.

(** This is the maximum number of characters that can appear in a legacy
    XLIFF 2.0 message id. *)
Definition MAX_LEGACY_XLIFF_2_MESSAGE_LENGTH : Z := 20.

Record LineAndColumn : Type := mkLineAndColumn {
  line : Z;
  column : Z
}.

(** [ɵSourceLocation]. *)
Record SourceLocation : Type := mkSourceLocation {
  loc_start : LineAndColumn;
  loc_end : option LineAndColumn;
  file : string;
  text : option string
}.

(** [ɵParsedMessage], restricted to the properties the serializer reads. *)
Record ParsedMessage : Type := mkParsedMessage {
  id : string;
  customId : option string;
  legacyIds : option (list string);
  meaning : option string;
  description : option string;
  location : option SourceLocation;
  messageParts : list string;
  placeholderNames : list string;
  substitutionLocations : option (gmap string SourceLocation)
}.

(** [/[^0-9]/.test(c)] on a single character. *)
Definition nonDigit (c : ascii) : bool :=
  negb ((48 <=? nat_of_ascii c)%nat && (nat_of_ascii c <=? 57)%nat).

(** [/[^0-9]/.test(s)]: some character of [s] is not a decimal digit. *)
Definition hasNonDigit (s : string) : bool :=
  existsb nonDigit (list_ascii_of_string s).

(** The arrow function handed to [legacyIds.find]. *)
Definition isLegacyXliff2Id (s : string) : bool :=
  (Z.of_nat (String.length s) <=? MAX_LEGACY_XLIFF_2_MESSAGE_LENGTH)
  && negb (hasNonDigit s).

(** *** Serializer state and the monad of its methods

    A method reads and writes the private field [currentPlaceholderId] and
    makes calls on the [XmlFile] it was handed, which are recorded in [xml]; it
    may raise a [TypeError] ([None]) when it uses [undefined] as a string.  The
    error that [endTag] of the [XmlFile] raises for a tag that is not the
    innermost open element is not raised here: whether the file takes the
    recorded calls is [Xliff2Output.openElements]. *)

Record State : Type := mkState {
  currentPlaceholderId : N;
  xml : list XmlFile.call
}.

Definition M (A : Type) : Type := State -> option (A * State).

#[global] Instance M_ret : MRet M := fun A a s => Some (a, s).
#[global] Instance M_bind : MBind M := fun A B f c s =>
  match c s with
  | Some (a, s') => f a s'
  | None => None
  end.

Definition throw {A : Type} : M A := fun _ => None.

(** One call on the [XmlFile], put on record. *)
Definition call (c : XmlFile.call) : M unit :=
  fun s => Some (tt, mkState (currentPlaceholderId s) (xml s ++ [c])).

(** [this.currentPlaceholderId = n] *)
Definition setCurrentPlaceholderId (n : N) : M unit :=
  fun s => Some (tt, mkState n (xml s)).

(** [this.currentPlaceholderId++] *)
Definition postIncrement : M N :=
  fun s => Some (currentPlaceholderId s,
                 mkState (currentPlaceholderId s + 1) (xml s)).

(** [for (let i = start; i < bound; i += stride) body(i)].  The loop is cut
    off (with [None]) when [fuel] iterations do not reach [bound]. *)
Fixpoint forLoop (fuel : nat) (i bound stride : Z) (body : Z -> M unit) : M unit :=
  if i <? bound then
    match fuel with
    | O => throw
    | S fuel' => body i;; forLoop fuel' (i + stride) bound stride body
    end
  else mret tt.

Section Serializer.

(** Constructor parameters of [Xliff2TranslationSerializer]. *)
Variable sourceLocale : string.
Variable basePath : string.
Variable useLegacyIds : bool.

(** path.relative of the compiler-cli file system, and the ICU placeholder
    splitter of [./icu_parsing]; neither is defined in this file's sources. *)
Variable relative : string -> string -> string.
Variable extractIcuPlaceholders : string -> list string.

(** [getMessageId], as the expression is written:
    [customId || useLegacyIds && legacyIds !== undefined && legacyIds.find(..) || id]. *)
Definition getMessageIdValue (message : ParsedMessage) : Js.value :=
  Js.or
    (Js.or (Js.ofOption (customId message))
       (fun _ =>
          Js.and
            (Js.and (Js.Bool useLegacyIds)
               (fun _ => Js.Bool (bool_decide (legacyIds message <> None))))
            (fun _ =>
               match legacyIds message with
               | Some ids => Js.ofOption (Js.find isLegacyXliff2Id ids)
               | None => Js.Undefined
               end)))
    (fun _ => Js.Str (id message)).

(** The declared result type is [string]; [getMessageIdValue_string] below
    shows that the expression never evaluates to anything else. *)
Definition getMessageId (message : ParsedMessage) : string :=
  match getMessageIdValue message with
  | Js.Str s => s
  | _ => id message
  end.

(** *** Methods writing to the [XmlFile] *)

(** Runs a method from a given state. *)
Definition run {A : Type} (c : M A) (s : State) : option (A * State) := c s.

(** [substitutionLocations?.[placeholderName]?.text] *)
Definition substitutionText
    (substitutionLocations : option (gmap string SourceLocation))
    (placeholderName : string) : option string :=
  match substitutionLocations with
  | Some locations =>
      match locations !! placeholderName with
      | Some loc => text loc
      | None => None
      end
  | None => None
  end.

(** [placeholderName.replace(/^START/, 'CLOSE')] *)
Definition replaceStartWithClose (placeholderName : string) : string :=
  if Js.startsWith placeholderName "START"
  then "CLOSE" +:+ substring 5 (String.length placeholderName - 5) placeholderName
  else placeholderName.

(** Adds [key: value] to an attribute record when the value is defined. *)
Definition setIfDefined (key : string) (value : option string)
    (attrs : list (string * string)) : list (string * string) :=
  match value with
  | Some v => attrs ++ [(key, v)]
  | None => attrs
  end.

Definition serializePlaceholder (placeholderName : string)
    (substitutionLocations : option (gmap string SourceLocation)) : M unit :=
  let text := substitutionText substitutionLocations placeholderName in
  if Js.startsWith placeholderName "START_" then
    let closingPlaceholderName := replaceStartWithClose placeholderName in
    let closingText := substitutionText substitutionLocations closingPlaceholderName in
    n ← postIncrement;
    let attrs := [("id", Js.showN n);
                  ("equivStart", placeholderName);
                  ("equivEnd", closingPlaceholderName)] in
    let attrs := setIfDefined "dispStart" text attrs in
    let attrs := setIfDefined "dispEnd" closingText attrs in
    call (XmlFile.startTag "pc" attrs XmlFile.noOptions)
  else if Js.startsWith placeholderName "CLOSE_" then
    call (XmlFile.endTag "pc" XmlFile.noOptions)
  else
    n ← postIncrement;
    let attrs := [("id", Js.showN n); ("equiv", placeholderName)] in
    let attrs := setIfDefined "disp" text attrs in
    call (XmlFile.startTag "ph" attrs (XmlFile.mkOptions (Some true) None)).

(** A value typed [string] that is [undefined] at run time: its first use as a
    string, here or in the function it is handed to, raises a [TypeError]. *)
Definition defined {A : Type} (o : option A) : M A :=
  match o with
  | Some a => mret a
  | None => throw
  end.

Definition serializeTextPart (text : string) : M unit :=
  let pieces := extractIcuPlaceholders text in
  let length := Z.of_nat (List.length pieces) - 1 in
  forLoop (Z.to_nat length) 0 length 2 (fun i =>
    piece ← defined (Js.index pieces i);
    call (XmlFile.text piece);;
    placeholder ← defined (Js.index pieces (i + 1));
    serializePlaceholder placeholder None);;
  piece ← defined (Js.index pieces length);
  call (XmlFile.text piece).

Definition serializeMessage (message : ParsedMessage) : M unit :=
  setCurrentPlaceholderId 0;;
  let length := Z.of_nat (List.length (messageParts message)) - 1 in
  forLoop (Z.to_nat length) 0 length 1 (fun i =>
    part ← defined (Js.index (messageParts message) i);
    serializeTextPart part;;
    placeholderName ← defined (Js.index (placeholderNames message) i);
    serializePlaceholder placeholderName (substitutionLocations message));;
  part ← defined (Js.index (messageParts message) length);
  serializeTextPart part.

Definition serializeNote (name value : string) : M unit :=
  call (XmlFile.startTag "note" [("category", name)]
          (XmlFile.mkOptions None (Some true)));;
  call (XmlFile.text value);;
  call (XmlFile.endTag "note" (XmlFile.mkOptions None (Some false))).

(** The text of the [location] note. *)
Definition locationNote (loc : SourceLocation) : string :=
  let endLineString :=
    match loc_end loc with
    | Some e =>
        if bool_decide (line e <> line (loc_start loc))
        then "," +:+ Js.showZ (line e + 1)
        else ""
    | None => ""
    end in
  relative basePath (file loc) +:+ ":" +:+ Js.showZ (line (loc_start loc) + 1)
    +:+ endLineString.

(** The statements of the loop body of [serialize] that follow [ids.add(id)]. *)
Definition serializeUnit (id : string) (message : ParsedMessage) : M unit :=
  call (XmlFile.startTag "unit" [("id", id)] XmlFile.noOptions);;
  (if Js.truthy (Js.or (Js.ofOption (meaning message))
                   (fun _ => Js.ofOption (description message)))
   then
     call (XmlFile.startTag "notes" [] XmlFile.noOptions);;
     match location message with
     | Some loc => serializeNote "location" (locationNote loc)
     | None => mret tt
     end;;
     (if Js.truthy (Js.ofOption (description message))
      then serializeNote "description" (default "" (description message))
      else mret tt);;
     (if Js.truthy (Js.ofOption (meaning message))
      then serializeNote "meaning" (default "" (meaning message))
      else mret tt);;
     call (XmlFile.endTag "notes" XmlFile.noOptions)
   else mret tt);;
  call (XmlFile.startTag "segment" [] XmlFile.noOptions);;
  call (XmlFile.startTag "source" [] (XmlFile.mkOptions None (Some true)));;
  serializeMessage message;;
  call (XmlFile.endTag "source" (XmlFile.mkOptions None (Some false)));;
  call (XmlFile.endTag "segment" XmlFile.noOptions);;
  call (XmlFile.endTag "unit" XmlFile.noOptions).

(** [for (const message of messages)], with the local [ids] set. *)
Fixpoint serializeMessages (ids : gset string) (messages : list ParsedMessage)
    : M unit :=
  match messages with
  | [] => mret tt
  | message :: rest =>
      let id := getMessageId message in
      if bool_decide (id ∈ ids) then
        (* Do not render the same message more than once *)
        serializeMessages ids rest
      else
        serializeUnit id message;;
        serializeMessages ({[id]} ∪ ids) rest
  end.

(** [serialize] up to [xml.toString()]: the calls received by the fresh
    [XmlFile], when the serializer object's field holds [placeholderId]. *)
Definition serializeCalls (messages : list ParsedMessage) (placeholderId : N)
    : option (list XmlFile.call) :=
  let body :=
    call (XmlFile.startTag "xliff"
            [("version", "2.0");
             ("xmlns", "urn:oasis:names:tc:xliff:document:2.0");
             ("srcLang", sourceLocale)] XmlFile.noOptions);;
    call (XmlFile.startTag "file" [("id", "ngi18n"); ("original", "ng.template")]
            XmlFile.noOptions);;
    serializeMessages ∅ messages;;
    call (XmlFile.endTag "file" XmlFile.noOptions);;
    call (XmlFile.endTag "xliff" XmlFile.noOptions) in
  match run body (mkState placeholderId []) with
  | Some (_, s) => Some (xml s)
  | None => None
  end.

(** [XmlFile.toString] is the rendering of the recorded calls. *)
Variable toString : list XmlFile.call -> string.

Definition serialize (messages : list ParsedMessage) (placeholderId : N)
    : option string :=
  toString <$> serializeCalls messages placeholderId.

(** *** Shape of what is written for one message *)

Definition isText (c : XmlFile.call) : bool :=
  match c with
  | XmlFile.text _ => true
  | _ => false
  end.

(** The tags [serializePlaceholder] writes: [<pc ..>], [</pc>] and [<ph ../>]. *)
Definition isPlaceholderTag (c : XmlFile.call) : bool :=
  match c with
  | XmlFile.startTag name _ _ => String.eqb name "pc" || String.eqb name "ph"
  | XmlFile.endTag name _ => String.eqb name "pc"
  | XmlFile.text _ => false
  end.

(** [text (tag text)*]: text parts and placeholder tags strictly alternate,
    starting and ending with a text part. *)
Fixpoint alternates (calls : list XmlFile.call) : bool :=
  match calls with
  | [XmlFile.text _] => true
  | XmlFile.text _ :: tag :: rest => isPlaceholderTag tag && alternates rest
  | _ => false
  end.

(** The calls that are not text. *)
Definition tagsOf (calls : list XmlFile.call) : list XmlFile.call :=
  List.filter (fun c => negb (isText c)) calls.

(** Property lookup in an attribute record. *)
Fixpoint attribute (key : string) (attrs : list (string * string)) : option string :=
  match attrs with
  | [] => None
  | (k, v) :: rest => if String.eqb k key then Some v else attribute key rest
  end.

(** The [CLOSE_*] name matching a [START_*] name. *)
Definition matchingClose (placeholderName : string) : string :=
  "CLOSE_" +:+ substring 6 (String.length placeholderName - 6) placeholderName.

(** [tag] is what the placeholder [placeholderName] is to be written as: a
    [START_*] name opens a [<pc>] carrying both names of the pair, a [CLOSE_*]
    name closes a [<pc>], any other name is a self-closing [<ph>]. *)
Definition renders (placeholderName : string) (tag : XmlFile.call) : bool :=
  if Js.startsWith placeholderName "START_" then
    match tag with
    | XmlFile.startTag name attrs options =>
        String.eqb name "pc"
        && bool_decide (attribute "equivStart" attrs = Some placeholderName)
        && bool_decide (attribute "equivEnd" attrs = Some (matchingClose placeholderName))
        && bool_decide (XmlFile.selfClosing options <> Some true)
    | _ => false
    end
  else if Js.startsWith placeholderName "CLOSE_" then
    match tag with
    | XmlFile.endTag name _ => String.eqb name "pc"
    | _ => false
    end
  else
    match tag with
    | XmlFile.startTag name attrs options =>
        String.eqb name "ph"
        && bool_decide (attribute "equiv" attrs = Some placeholderName)
        && bool_decide (XmlFile.selfClosing options = Some true)
    | _ => false
    end.

(** The [START_*]/[CLOSE_*] names of a message come in properly nested pairs:
    every [CLOSE_*] is the partner of the nearest unclosed [START_*], and no
    [START_*] is left unclosed.  [expected] holds the partners still awaited,
    innermost first. *)
Fixpoint properlyNested (expected : list string) (names : list string) : bool :=
  match names with
  | [] => bool_decide (expected = [])
  | name :: rest =>
      if Js.startsWith name "START_" then
        properlyNested (matchingClose name :: expected) rest
      else if Js.startsWith name "CLOSE_" then
        match expected with
        | e :: expected' => String.eqb e name && properlyNested expected' rest
        | [] => false
        end
      else properlyNested expected rest
  end.

(** Element nesting of the written tags, read as an XML reader would: an
    opening [<pc>] is closed by the next [</pc>] at the same depth.  Each tag
    comes with the placeholder it was written for; the check succeeds when
    every [<pc>] is closed by the tag of the placeholder that its [equivEnd]
    attribute names, and none is left open.  [open] holds the [equivEnd] of
    the elements still open, innermost first. *)
Fixpoint pcClosedByMatching (open : list string)
    (written : list (string * XmlFile.call)) : bool :=
  match written with
  | [] => bool_decide (open = [])
  | (placeholderName, tag) :: rest =>
      match tag with
      | XmlFile.startTag name attrs options =>
          if String.eqb name "pc" && bool_decide (XmlFile.selfClosing options <> Some true)
          then match attribute "equivEnd" attrs with
               | Some e => pcClosedByMatching (e :: open) rest
               | None => false
               end
          else pcClosedByMatching open rest
      | XmlFile.endTag name _ =>
          if String.eqb name "pc"
          then match open with
               | e :: open' => String.eqb e placeholderName && pcClosedByMatching open' rest
               | [] => false
               end
          else pcClosedByMatching open rest
      | XmlFile.text _ => pcClosedByMatching open rest
      end
  end.

(** Depth of [<pc>] nesting after [calls], starting at [depth]; [None] when a
    [</pc>] has no open [<pc>] to close. *)
Fixpoint pcDepth (depth : nat) (calls : list XmlFile.call) : option nat :=
  match calls with
  | [] => Some depth
  | XmlFile.startTag name _ options :: rest =>
      if String.eqb name "pc" && bool_decide (XmlFile.selfClosing options <> Some true)
      then pcDepth (S depth) rest
      else pcDepth depth rest
  | XmlFile.endTag name _ :: rest =>
      if String.eqb name "pc"
      then match depth with
           | S depth' => pcDepth depth' rest
           | O => None
           end
      else pcDepth depth rest
  | XmlFile.text _ :: rest => pcDepth depth rest
  end.

(** The [<pc>] tags are balanced. *)
Definition pcBalanced (calls : list XmlFile.call) : bool :=
  bool_decide (pcDepth 0 calls = Some 0%nat).

(** *** The message id as the documentation words it

    "Returns [customId] when it is a non-empty string; otherwise, when
    [useLegacyIds] is true and [legacyIds] is defined and contains an id of at
    most 20 characters consisting only of decimal digits, the first such legacy
    id; otherwise [id]." *)

Definition isDecimalDigit (c : ascii) : bool :=
  (nat_of_ascii "0" <=? nat_of_ascii c)%nat && (nat_of_ascii c <=? nat_of_ascii "9")%nat.

Definition atMost20Digits (s : string) : bool :=
  (String.length s <=? 20)%nat && forallb isDecimalDigit (list_ascii_of_string s).

Definition nonEmpty (o : option string) : option string :=
  match o with
  | Some s => if String.eqb s "" then None else Some s
  | None => None
  end.

Definition getMessageId_claimed (message : ParsedMessage) : string :=
  match nonEmpty (customId message) with
  | Some custom => custom
  | None =>
      match (if useLegacyIds then legacyIds message else None) with
      | Some ids =>
          match List.find atMost20Digits ids with
          | Some legacy => legacy
          | None => id message
          end
      | None => id message
      end
  end.

(** The same, except that a first matching legacy id that is the empty string
    is not used. *)
Definition getMessageId_amended (message : ParsedMessage) : string :=
  match nonEmpty (customId message) with
  | Some custom => custom
  | None =>
      match (if useLegacyIds then legacyIds message else None) with
      | Some ids =>
          match nonEmpty (List.find atMost20Digits ids) with
          | Some legacy => legacy
          | None => id message
          end
      | None => id message
      end
  end.

(** *** What one run writes

    The calls a method makes and the value it leaves in
    [currentPlaceholderId], as functions of the value it finds there. *)

(** The call made by [serializePlaceholder]. *)
Definition placeholderCall (n : N) (placeholderName : string)
    (substitutionLocations : option (gmap string SourceLocation)) : XmlFile.call :=
  let text := substitutionText substitutionLocations placeholderName in
  if Js.startsWith placeholderName "START_" then
    let closingPlaceholderName := replaceStartWithClose placeholderName in
    let closingText := substitutionText substitutionLocations closingPlaceholderName in
    XmlFile.startTag "pc"
      (setIfDefined "dispEnd" closingText
         (setIfDefined "dispStart" text
            [("id", Js.showN n); ("equivStart", placeholderName);
             ("equivEnd", closingPlaceholderName)]))
      XmlFile.noOptions
  else if Js.startsWith placeholderName "CLOSE_" then
    XmlFile.endTag "pc" XmlFile.noOptions
  else
    XmlFile.startTag "ph"
      (setIfDefined "disp" text [("id", Js.showN n); ("equiv", placeholderName)])
      (XmlFile.mkOptions (Some true) None).

(** A [CLOSE_] placeholder consumes no placeholder id. *)
Definition placeholderNext (n : N) (placeholderName : string) : N :=
  if Js.startsWith placeholderName "START_" then n + 1
  else if Js.startsWith placeholderName "CLOSE_" then n
  else n + 1.

(** The loop of [serializeTextPart] over [pieces[i..]]. *)
Fixpoint piecesCalls (n : N) (pieces : list string) : list XmlFile.call * N :=
  match pieces with
  | piece :: placeholder :: rest =>
      let '(calls, n') := piecesCalls (placeholderNext n placeholder) rest in
      (XmlFile.text piece :: placeholderCall n placeholder None :: calls, n')
  | _ => ([], n)
  end.

Definition textPartCalls (n : N) (text : string) : list XmlFile.call * N :=
  let pieces := extractIcuPlaceholders text in
  let '(calls, n') := piecesCalls n pieces in
  ((calls ++ [XmlFile.text (List.last pieces "")])%list, n').

(** The loop of [serializeMessage] over [messageParts[i..]] and
    [placeholderNames[i..]]. *)
Fixpoint partsCalls (n : N) (parts names : list string)
    (substitutionLocations : option (gmap string SourceLocation))
    : list XmlFile.call * N :=
  match parts, names with
  | part :: (_ :: _) as parts', name :: names' =>
      let '(calls1, n1) := textPartCalls n part in
      let '(calls2, n2) :=
        partsCalls (placeholderNext n1 name) parts' names' substitutionLocations in
      ((calls1 ++ placeholderCall n1 name substitutionLocations :: calls2)%list, n2)
  | _, _ => ([], n)
  end.

Definition messageCalls (message : ParsedMessage) : list XmlFile.call * N :=
  let '(calls1, n1) :=
    partsCalls 0 (messageParts message) (placeholderNames message)
      (substitutionLocations message) in
  let '(calls2, n2) := textPartCalls n1 (List.last (messageParts message) "") in
  ((calls1 ++ calls2)%list, n2).

(** The placeholder names handed to [serializePlaceholder], in order: the ICU
    placeholders of each text part and the placeholder that follows the part. *)
Fixpoint piecesPlaceholders (pieces : list string) : list string :=
  match pieces with
  | _ :: placeholder :: rest => placeholder :: piecesPlaceholders rest
  | _ => []
  end.

Fixpoint partsPlaceholders (parts names : list string) : list string :=
  match parts, names with
  | part :: (_ :: _) as parts', name :: names' =>
      (piecesPlaceholders (extractIcuPlaceholders part)
         ++ name :: partsPlaceholders parts' names')%list
  | _, _ => []
  end.

Definition writtenPlaceholders (message : ParsedMessage) : list string :=
  (partsPlaceholders (messageParts message) (placeholderNames message)
     ++ piecesPlaceholders
          (extractIcuPlaceholders (List.last (messageParts message) "")))%list.

(** [messageParts] has one more element than [placeholderNames]. *)
Definition wellFormed (message : ParsedMessage) : Prop :=
  List.length (messageParts message) = S (List.length (placeholderNames message)).

(** *** Units of the serialized file *)

(** The calls the loop body of [serialize] makes for a message it renders. *)
Definition unitCalls (message : ParsedMessage) : list XmlFile.call :=
  match run (serializeUnit (getMessageId message) message) (mkState 0 []) with
  | Some (_, s) => xml s
  | None => []
  end.

(** The calls around the units. *)
Definition prologue : list XmlFile.call :=
  [XmlFile.startTag "xliff"
     [("version", "2.0"); ("xmlns", "urn:oasis:names:tc:xliff:document:2.0");
      ("srcLang", sourceLocale)] XmlFile.noOptions;
   XmlFile.startTag "file" [("id", "ngi18n"); ("original", "ng.template")]
     XmlFile.noOptions].

Definition epilogue : list XmlFile.call :=
  [XmlFile.endTag "file" XmlFile.noOptions; XmlFile.endTag "xliff" XmlFile.noOptions].

(** The first message of [messages], in list order, with the id of [message]. *)
Definition firstWithIdOf (message : ParsedMessage) (messages : list ParsedMessage)
    : option ParsedMessage :=
  List.find (fun m => String.eqb (getMessageId m) (getMessageId message)) messages.

(** The calls of [serializeNote]. *)
Definition noteCalls (name value : string) : list XmlFile.call :=
  [XmlFile.startTag "note" [("category", name)] (XmlFile.mkOptions None (Some true));
   XmlFile.text value;
   XmlFile.endTag "note" (XmlFile.mkOptions None (Some false))].

(** The calls of the [<notes>] block of a unit. *)
Definition notesCalls (message : ParsedMessage) : list XmlFile.call :=
  if Js.truthy (Js.or (Js.ofOption (meaning message))
                  (fun _ => Js.ofOption (description message)))
  then
    (XmlFile.startTag "notes" [] XmlFile.noOptions
       :: match location message with
          | Some loc => noteCalls "location" (locationNote loc)
          | None => []
          end
       ++ (if Js.truthy (Js.ofOption (description message))
           then noteCalls "description" (default "" (description message))
           else [])
       ++ (if Js.truthy (Js.ofOption (meaning message))
           then noteCalls "meaning" (default "" (meaning message))
           else [])
       ++ [XmlFile.endTag "notes" XmlFile.noOptions])%list
  else [].

(** The calls of one unit, written out. *)
Definition unitCallsOf (id : string) (message : ParsedMessage) : list XmlFile.call :=
  (XmlFile.startTag "unit" [("id", id)] XmlFile.noOptions
     :: notesCalls message
     ++ [XmlFile.startTag "segment" [] XmlFile.noOptions;
         XmlFile.startTag "source" [] (XmlFile.mkOptions None (Some true))]
     ++ fst (messageCalls message)
     ++ [XmlFile.endTag "source" (XmlFile.mkOptions None (Some false));
         XmlFile.endTag "segment" XmlFile.noOptions;
         XmlFile.endTag "unit" XmlFile.noOptions])%list.

(** The messages the loop of [serialize] does not skip, when [ids] holds the
    ids seen so far. *)
Fixpoint renderedMessages (ids : gset string) (messages : list ParsedMessage)
    : list ParsedMessage :=
  match messages with
  | [] => []
  | message :: rest =>
      if bool_decide (getMessageId message ∈ ids)
      then renderedMessages ids rest
      else message :: renderedMessages ({[getMessageId message]} ∪ ids) rest
  end.

End Serializer.

(** ** What a run of a method writes

    [Emits c n a n' calls]: started with [currentPlaceholderId = n], the method
    [c] returns [a] without raising a [TypeError], leaves [n'] in the field and
    makes exactly the calls [calls] on the [XmlFile], after those on record. *)

Definition Emits {A : Type} (c : M A) (n : N) (a : A) (n' : N)
    (calls : list XmlFile.call) : Prop :=
  forall xs, c (mkState n xs) = Some (a, mkState n' (xs ++ calls)%list).

(** The [id] attributes of the [<unit>] elements opened in [calls]. *)
Definition unitIds (calls : list XmlFile.call) : list string :=
  omap (fun c =>
          match c with
          | XmlFile.startTag name attrs _ =>
              if String.eqb name "unit" then attribute "id" attrs else None
          | _ => None
          end) calls.

(** A message whose first digits-only legacy id is the empty string. *)
Definition messageWithEmptyLegacyId : ParsedMessage :=
  mkParsedMessage "canonical" None (Some [""; "123"]) None None None ["text"] [] None.

(** A message with a bold element and an interpolation. *)
Definition boldMessage : ParsedMessage :=
  mkParsedMessage "1" None None None None None
    ["Hello "; "world"; "! "; ""]
    ["START_BOLD_TEXT"; "CLOSE_BOLD_TEXT"; "INTERPOLATION"] None.

(** A message whose [START_BOLD_TEXT] placeholder has no [CLOSE_BOLD_TEXT]. *)
Definition unclosedMessage : ParsedMessage :=
  mkParsedMessage "2" None None None None None
    ["a"; "b"] ["START_BOLD_TEXT"] None.

(** A second message with the id of [boldMessage]. *)
Definition repeatedMessage : ParsedMessage :=
  mkParsedMessage "1" None None (Some "greeting") None None ["Hello again"] [] None.

End Xliff2.

(** ** Reading the calls of a run

    What a consumer of the [XmlFile] sees in the calls the serializer made:
    the ids of the placeholder elements, the text, the notes and the nesting of
    the elements. *)

Module Xliff2Output.

Import Xliff2.

(** The [id] attributes of the [<pc>] and [<ph>] elements opened in [calls]. *)
Definition placeholderIds (calls : list XmlFile.call) : list string :=
  omap (fun c =>
          match c with
          | XmlFile.startTag name attrs _ =>
              if String.eqb name "pc" || String.eqb name "ph"
              then attribute "id" attrs
              else None
          | _ => None
          end) calls.

(** The branches of [serializePlaceholder] that evaluate
    [this.currentPlaceholderId++]: all but the [CLOSE_*] one. *)
Definition consumesId (placeholderName : string) : bool :=
  if Js.startsWith placeholderName "START_" then true
  else if Js.startsWith placeholderName "CLOSE_" then false
  else true.

(** The decimal renderings of [n], [n + 1], ..., [n + count - 1]. *)
Definition idsFrom (n : N) (count : nat) : list string :=
  map (fun i => Js.showN (n + N.of_nat i)) (seq 0 count).

(** [written] is what a run leaves that starts with [currentPlaceholderId = n]
    and serializes [placeholders]: the ids of its placeholder elements count up
    from [n], one for each placeholder that consumes an id, and the field ends
    up past the last of them. *)
Definition Numbered (written : list XmlFile.call * N) (n : N)
    (placeholders : list string) : Prop :=
  placeholderIds (fst written) = idsFrom n (length (List.filter consumesId placeholders))
  /\ snd written = (n + N.of_nat (length (List.filter consumesId placeholders)))%N.

(** The arguments of the [xml.text] calls. *)
Definition textsOf (calls : list XmlFile.call) : list string :=
  omap (fun c =>
          match c with
          | XmlFile.text str => Some str
          | _ => None
          end) calls.

(** The elements at even indices: of the pieces returned by the ICU splitter,
    the text pieces. *)
Fixpoint evens (pieces : list string) : list string :=
  match pieces with
  | piece :: _ :: rest => piece :: evens rest
  | _ => pieces
  end.

(** The [category] attributes of the [<note>] elements opened in [calls]. *)
Definition noteCategories (calls : list XmlFile.call) : list string :=
  omap (fun c =>
          match c with
          | XmlFile.startTag name attrs _ =>
              if String.eqb name "note" then attribute "category" attrs else None
          | _ => None
          end) calls.

(** Element nesting of a call sequence, as the [XmlFile] checks it: a start
    tag that is not self-closing opens an element, an end tag must name the
    innermost open element and closes it.  [open] holds the names of the open
    elements, innermost first; the result is [None] when an end tag does not
    name the innermost open element, where [endTag] raises an error. *)
Fixpoint openElements (open : list string) (calls : list XmlFile.call)
    : option (list string) :=
  match calls with
  | [] => Some open
  | XmlFile.startTag name _ options :: rest =>
      if bool_decide (XmlFile.selfClosing options = Some true)
      then openElements open rest
      else openElements (name :: open) rest
  | XmlFile.endTag name _ :: rest =>
      match open with
      | innermost :: open' =>
          if String.eqb innermost name then openElements open' rest else None
      | [] => None
      end
  | XmlFile.text _ :: rest => openElements open rest
  end.

(** The number of [START_*] placeholders that are still unclosed after
    [names], [depth] of them being unclosed before: a [START_*] adds one and a
    [CLOSE_*] takes one away.  The result is [None] when a [CLOSE_*] comes with
    no [START_*] unclosed: the [endTag('pc')] written for it has no [<pc>] of
    the message to close. *)
Fixpoint unclosedStarts (depth : nat) (names : list string) : option nat :=
  match names with
  | [] => Some depth
  | name :: rest =>
      if Js.startsWith name "START_" then unclosedStarts (S depth) rest
      else if Js.startsWith name "CLOSE_" then
        match depth with
        | S depth' => unclosedStarts depth' rest
        | O => None
        end
      else unclosedStarts depth rest
  end.

(** Two outcomes of a method that differ at most in the value left in
    [currentPlaceholderId]. *)
Definition sameXml {A : Type} (r1 r2 : option (A * State)) : Prop :=
  match r1, r2 with
  | Some (a1, s1), Some (a2, s2) => a1 = a2 /\ xml s1 = xml s2
  | None, None => True
  | _, _ => False
  end.

(** A method whose result and calls do not depend on the value it finds in
    [currentPlaceholderId]. *)
Definition CounterBlind {A : Type} (c : M A) : Prop :=
  forall s1 s2, xml s1 = xml s2 -> sameXml (c s1) (c s2).

(** A method that only appends to the [XmlFile]: handed a file that already
    holds [xs], it fails if it fails on an empty file, and otherwise returns
    the same value, leaves the same [currentPlaceholderId] and makes the same
    calls, after [xs]. *)
Definition AppendOnly {A : Type} (c : M A) : Prop :=
  forall n xs,
    c (mkState n xs) =
    match c (mkState n []) with
    | Some (a, s') => Some (a, mkState (currentPlaceholderId s') (xs ++ xml s')%list)
    | None => None
    end.

(** [boldMessage] with another id, a meaning, and more placeholder names than
    its message parts can use. *)
Definition boldMessageWithSurplusNames : ParsedMessage :=
  mkParsedMessage "3" None None (Some "greeting") None None
    ["Hello "; "world"; "! "; ""]
    ["START_BOLD_TEXT"; "CLOSE_BOLD_TEXT"; "INTERPOLATION"; "INTERPOLATION_1"] None.

(** A message with the id of [boldMessage], two message parts and no
    placeholder name. *)
Definition messageWithoutNames : ParsedMessage :=
  mkParsedMessage "1" None None None None None ["a"; "b"] [] None.

(** A message with three message parts and one placeholder name. *)
Definition messageWithTooFewNames : ParsedMessage :=
  mkParsedMessage "4" None None None None None ["a"; "b"; "c"] ["INTERPOLATION"] None.

(** A message whose canonical id, custom id and only legacy id are all empty. *)
Definition anonymousMessage : ParsedMessage :=
  mkParsedMessage "" (Some "") (Some [""]) None None None ["text"] [] None.

(** A message with a location and a description but no meaning. *)
Definition describedMessage : ParsedMessage :=
  mkParsedMessage "5" None None None (Some "a greeting")
    (Some (mkSourceLocation (mkLineAndColumn 4 0) (Some (mkLineAndColumn 6 2))
             "/src/app.ts" None))
    ["Hello "; ""] ["INTERPOLATION"] None.

End Xliff2Output.

(** * The position resolver

    [findNodeAtPosition] is imported by the test-suite from [../hybrid_visitor],
    and the trees it is run on come from [parseTemplate] of the compiler;
    neither is among the sources.  The data model and the resolver are
    modelled from the written specification (its sections 3 and 4.2), and
    where the tests of [hybrid_visitor_spec.ts] show what the code does they
    are followed: the tests are what the sources say of the resolver. *)

Module HybridVisitor.

(** Modelled from the spec: a source span, a contiguous range of offsets into
    the template text, from [span_start] to [span_end]. *)
Record Span : Type := mkSpan {
  span_start : Z;
  span_end : Z
}.

(** Modelled from the spec: the expression nodes of [expression_parser/ast],
    each with its span and its child slots. *)
Inductive AST : Type :=
| PropertyRead (span : Span) (receiver : AST) (name : string)
| SafePropertyRead (span : Span) (receiver : AST) (name : string)
| KeyedRead (span : Span) (obj key : AST)
| PropertyWrite (span : Span) (receiver : AST) (name : string) (value : AST)
| KeyedWrite (span : Span) (obj key value : AST)
| Binary (span : Span) (operation : string) (left right : AST)
| BindingPipe (span : Span) (exp : AST) (name : string) (args : list AST)
| MethodCall (span : Span) (receiver : AST) (name : string) (args : list AST)
| SafeMethodCall (span : Span) (receiver : AST) (name : string) (args : list AST)
| LiteralPrimitive (span : Span) (value : string)
| LiteralArray (span : Span) (expressions : list AST)
| LiteralMap (span : Span) (keys : list string) (values : list AST)
| Conditional (span : Span) (condition trueExp falseExp : AST)
| EmptyExpr (span : Span)
| ImplicitReceiver (span : Span).

(** Modelled from the spec: the template nodes of [render3/r3_ast].  [Element],
    [Template] and [Content] are the structural containers; [BoundAttribute],
    [BoundEvent] and [Text] carry embedded expressions (the value, the handler,
    the interpolation parts).  [VariableNode] is the node [Variable], a
    reserved word here. *)
Inductive Node : Type :=
| Element (sourceSpan : Span) (name : string)
    (attributes inputs outputs references children : list Node)
| Template (sourceSpan : Span) (tagName : string)
    (attributes inputs outputs references variables children : list Node)
| Content (sourceSpan : Span) (selector : string) (attributes : list Node)
| TextAttribute (sourceSpan : Span) (name value : string)
| BoundAttribute (sourceSpan : Span) (name : string) (value : AST)
| BoundEvent (sourceSpan : Span) (name : string) (handler : AST)
| Reference (sourceSpan : Span) (name value : string)
| VariableNode (sourceSpan : Span) (name value : string)
| Text (sourceSpan : Span) (value : string) (parts : list AST)
| Icu (sourceSpan : Span).

(** Modelled from the spec: the result of the resolver, a node of either
    grammar. *)
Inductive Located : Type :=
| Tmpl (node : Node)
| Expr (ast : AST).

(** *** Span classifier *)

Inductive Family : Type := TemplateFamily | ExpressionFamily.

(** Modelled from the spec: [classify(node)], section 4.1. *)
Definition classify (x : Located) : Family :=
  match x with
  | Tmpl _ => TemplateFamily
  | Expr _ => ExpressionFamily
  end.

Definition isTemplateNode (x : Located) : bool :=
  match classify x with TemplateFamily => true | ExpressionFamily => false end.

Definition isExpressionNode (x : Located) : bool :=
  match classify x with ExpressionFamily => true | TemplateFamily => false end.

(** *** Spans *)

Definition astSpan (ast : AST) : Span :=
  match ast with
  | PropertyRead s _ _ | SafePropertyRead s _ _ | KeyedRead s _ _
  | PropertyWrite s _ _ _ | KeyedWrite s _ _ _ | Binary s _ _ _
  | BindingPipe s _ _ _ | MethodCall s _ _ _ | SafeMethodCall s _ _ _
  | LiteralPrimitive s _ | LiteralArray s _ | LiteralMap s _ _
  | Conditional s _ _ _ | EmptyExpr s | ImplicitReceiver s => s
  end.

Definition nodeSpan (node : Node) : Span :=
  match node with
  | Element s _ _ _ _ _ _ | Template s _ _ _ _ _ _ _ | Content s _ _
  | TextAttribute s _ _ | BoundAttribute s _ _ | BoundEvent s _ _
  | Reference s _ _ | VariableNode s _ _ | Text s _ _ | Icu s => s
  end.

(** Modelled from the spec: the test of rules 2 and 5 of section 4.2, with the
    end offset taken as the tests of the code have it.  The start offset is
    inside the node.  Rule 5 puts the end offset outside, but the tests locate
    a node with the cursor right after its last character
    ([{{ foo['bar']¦ }}] is the [KeyedRead], [{{ title | p¦ }}] the
    [BindingPipe]) and locate the [EmptyExpr] of [[id]="¦"], whose span is
    zero-width: the end offset is inside the node as well. *)
Definition isWithin (position : Z) (span : Span) : bool :=
  (span_start span <=? position) && (position <=? span_end span).

(** *** Position resolver *)

(** The first of two results that is not absent. *)
Definition orElse (first next : option Located) : option Located :=
  match first with
  | Some _ => first
  | None => next
  end.

(** Modelled from the spec: "the first descendant match wins" (rule 3).  The
    siblings [xs] are tried in order; the visit of the first one whose span
    holds the position is the result, and the siblings after it are not
    visited; [found] stays when none matches. *)
Definition firstDescendant {A : Type}
    (visitOne : option Located -> A -> option Located)
    : list A -> option Located -> option Located :=
  fix go (xs : list A) (found : option Located) : option Located :=
    match xs with
    | [] => found
    | x :: rest => orElse (visitOne None x) (go rest found)
    end.

(** Modelled from the spec: the expression-side descent, rule 4 of section
    4.2.  [found] is the best match so far.  A node whose span holds the
    position becomes the best match and its child slots are then tried in
    order; an [ImplicitReceiver] is never selected, whatever its span. *)
Fixpoint visitAst (position : Z) (found : option Located) (ast : AST)
    : option Located :=
  match ast with
  | ImplicitReceiver _ => found
  | _ =>
      if isWithin position (astSpan ast) then
        let found := Some (Expr ast) in
        match ast with
        | PropertyRead _ receiver _ | SafePropertyRead _ receiver _ =>
            orElse (visitAst position None receiver) found
        | KeyedRead _ obj key =>
            orElse (visitAst position None obj)
              (orElse (visitAst position None key) found)
        | PropertyWrite _ receiver _ value =>
            orElse (visitAst position None receiver)
              (orElse (visitAst position None value) found)
        | KeyedWrite _ obj key value =>
            orElse (visitAst position None obj)
              (orElse (visitAst position None key)
                 (orElse (visitAst position None value) found))
        | Binary _ _ lhs rhs =>
            orElse (visitAst position None lhs)
              (orElse (visitAst position None rhs) found)
        | BindingPipe _ exp _ args =>
            orElse (visitAst position None exp)
              (firstDescendant (visitAst position) args found)
        | MethodCall _ receiver _ args | SafeMethodCall _ receiver _ args =>
            orElse (visitAst position None receiver)
              (firstDescendant (visitAst position) args found)
        | LiteralArray _ expressions =>
            firstDescendant (visitAst position) expressions found
        | LiteralMap _ _ values =>
            firstDescendant (visitAst position) values found
        | Conditional _ condition trueExp falseExp =>
            orElse (visitAst position None condition)
              (orElse (visitAst position None trueExp)
                 (orElse (visitAst position None falseExp) found))
        | LiteralPrimitive _ _ | EmptyExpr _ | ImplicitReceiver _ => found
        end
      else found
  end.

(** Modelled from the spec: rules 2 and 3 of section 4.2 for one template
    node.  A node whose span does not hold the position is skipped; otherwise
    it becomes the best match and the resolver descends: into the child
    collections of a container, in the order attributes, bound attributes,
    bound events, references, variables, children; into the embedded
    expression of a binding, an event or an interpolation.  The first
    descendant match wins. *)
Fixpoint visit (position : Z) (found : option Located) (node : Node)
    : option Located :=
  if isWithin position (nodeSpan node) then
    let found := Some (Tmpl node) in
    match node with
    | Element _ _ attributes inputs outputs references children =>
        firstDescendant (visit position) attributes
          (firstDescendant (visit position) inputs
             (firstDescendant (visit position) outputs
                (firstDescendant (visit position) references
                   (firstDescendant (visit position) children found))))
    | Template _ _ attributes inputs outputs references variables children =>
        firstDescendant (visit position) attributes
          (firstDescendant (visit position) inputs
             (firstDescendant (visit position) outputs
                (firstDescendant (visit position) references
                   (firstDescendant (visit position) variables
                      (firstDescendant (visit position) children found)))))
    | Content _ _ attributes =>
        firstDescendant (visit position) attributes found
    | BoundAttribute _ _ value => orElse (visitAst position None value) found
    | BoundEvent _ _ handler => orElse (visitAst position None handler) found
    | Text _ _ parts => firstDescendant (visitAst position) parts found
    | TextAttribute _ _ _ | Reference _ _ _ | VariableNode _ _ _ | Icu _ => found
    end
  else found.

(** Modelled from the spec: rule 2 over a sequence of siblings, in document
    order. *)
Definition visitAll (position : Z) (nodes : list Node) (found : option Located)
    : option Located :=
  firstDescendant (visit position) nodes found.

(** Modelled from the spec: [find(nodes, position)], the resolver
    [findNodeAtPosition] of [hybrid_visitor]; the accumulator starts absent
    (rule 1) and the result is what it holds after the roots (rule 7). *)
Definition findNodeAtPosition (nodes : list Node) (position : Z) : option Located :=
  visitAll position nodes None.

(** *** Both grammars seen as one tree *)

Definition spanOf (x : Located) : Span :=
  match x with
  | Tmpl node => nodeSpan node
  | Expr ast => astSpan ast
  end.

(** The child slots of an expression node, in the order they are visited. *)
Definition astChildren (ast : AST) : list AST :=
  match ast with
  | PropertyRead _ receiver _ | SafePropertyRead _ receiver _ => [receiver]
  | KeyedRead _ obj key => [obj; key]
  | PropertyWrite _ receiver _ value => [receiver; value]
  | KeyedWrite _ obj key value => [obj; key; value]
  | Binary _ _ lhs rhs => [lhs; rhs]
  | BindingPipe _ exp _ args => exp :: args
  | MethodCall _ receiver _ args | SafeMethodCall _ receiver _ args => receiver :: args
  | LiteralArray _ expressions => expressions
  | LiteralMap _ _ values => values
  | Conditional _ condition trueExp falseExp => [condition; trueExp; falseExp]
  | LiteralPrimitive _ _ | EmptyExpr _ | ImplicitReceiver _ => []
  end.

(** The children of a node of either grammar, in the order they are visited. *)
Definition childrenOf (x : Located) : list Located :=
  match x with
  | Tmpl (Element _ _ attributes inputs outputs references children) =>
      map Tmpl (attributes ++ inputs ++ outputs ++ references ++ children)
  | Tmpl (Template _ _ attributes inputs outputs references variables children) =>
      map Tmpl (attributes ++ inputs ++ outputs ++ references ++ variables ++ children)
  | Tmpl (Content _ _ attributes) => map Tmpl attributes
  | Tmpl (BoundAttribute _ _ value) => [Expr value]
  | Tmpl (BoundEvent _ _ handler) => [Expr handler]
  | Tmpl (Text _ _ parts) => map Expr parts
  | Tmpl (TextAttribute _ _ _) | Tmpl (Reference _ _ _)
  | Tmpl (VariableNode _ _ _) | Tmpl (Icu _) => []
  | Expr ast => map Expr (astChildren ast)
  end.

(** Every node but an [ImplicitReceiver] can be the result. *)
Definition locatable (x : Located) : bool :=
  match x with
  | Expr (ImplicitReceiver _) => false
  | _ => true
  end.

(** The node is a candidate at the position: its span holds the position and
    it is not an [ImplicitReceiver]. *)
Definition matchesAt (position : Z) (x : Located) : bool :=
  locatable x && isWithin position (spanOf x).

(** The visit of a node of either grammar. *)
Definition visitLocated (position : Z) (found : option Located) (x : Located)
    : option Located :=
  match x with
  | Tmpl node => visit position found node
  | Expr ast => visitAst position found ast
  end.

(** [SelfOrBelow x y]: [y] is [x] or one of its descendants. *)
Inductive SelfOrBelow : Located -> Located -> Prop :=
| sob_self (x : Located) : SelfOrBelow x x
| sob_child (x c y : Located) :
    In c (childrenOf x) -> SelfOrBelow c y -> SelfOrBelow x y.

(** [y] is a node of the tree with roots [nodes]. *)
Definition InTree (nodes : list Node) (y : Located) : Prop :=
  exists root, In root nodes /\ SelfOrBelow (Tmpl root) y.

Fixpoint sizeAst (ast : AST) : nat :=
  S match ast with
    | PropertyRead _ receiver _ | SafePropertyRead _ receiver _ => sizeAst receiver
    | KeyedRead _ obj key => sizeAst obj + sizeAst key
    | PropertyWrite _ receiver _ value => sizeAst receiver + sizeAst value
    | KeyedWrite _ obj key value => sizeAst obj + sizeAst key + sizeAst value
    | Binary _ _ lhs rhs => sizeAst lhs + sizeAst rhs
    | BindingPipe _ exp _ args => sizeAst exp + list_sum (map sizeAst args)
    | MethodCall _ receiver _ args | SafeMethodCall _ receiver _ args =>
        sizeAst receiver + list_sum (map sizeAst args)
    | LiteralArray _ expressions => list_sum (map sizeAst expressions)
    | LiteralMap _ _ values => list_sum (map sizeAst values)
    | Conditional _ condition trueExp falseExp =>
        sizeAst condition + sizeAst trueExp + sizeAst falseExp
    | LiteralPrimitive _ _ | EmptyExpr _ | ImplicitReceiver _ => 0
    end%nat.

Fixpoint sizeNode (node : Node) : nat :=
  S match node with
    | Element _ _ attributes inputs outputs references children =>
        list_sum (map sizeNode attributes) + list_sum (map sizeNode inputs)
        + list_sum (map sizeNode outputs) + list_sum (map sizeNode references)
        + list_sum (map sizeNode children)
    | Template _ _ attributes inputs outputs references variables children =>
        list_sum (map sizeNode attributes) + list_sum (map sizeNode inputs)
        + list_sum (map sizeNode outputs) + list_sum (map sizeNode references)
        + list_sum (map sizeNode variables) + list_sum (map sizeNode children)
    | Content _ _ attributes => list_sum (map sizeNode attributes)
    | BoundAttribute _ _ value => sizeAst value
    | BoundEvent _ _ handler => sizeAst handler
    | Text _ _ parts => list_sum (map sizeAst parts)
    | TextAttribute _ _ _ | Reference _ _ _ | VariableNode _ _ _ | Icu _ => 0
    end%nat.

Definition sizeOf (x : Located) : nat :=
  match x with
  | Tmpl node => sizeNode node
  | Expr ast => sizeAst ast
  end.

(** *** Well-formed trees

    Modelled from the spec: the invariants of section 3 and the assumption of
    rule 2.  Spans have a non-negative start and length; the span of a child
    lies within the span of its parent; the spans of siblings do not overlap:
    no offset is held by two of them, so that at most one sibling holds a
    position.  The span of an [ImplicitReceiver] is exempt from the last
    two. *)

Definition validSpan (s : Span) : bool :=
  (0 <=? span_start s) && (span_start s <=? span_end s).

Definition contains (outer inner : Span) : bool :=
  (span_start outer <=? span_start inner) && (span_end inner <=? span_end outer).

(** No offset is held by both spans: the one ends before the other starts. *)
Definition disjoint (a b : Span) : bool :=
  Z.min (span_end a) (span_end b) <? Z.max (span_start a) (span_start b).

Fixpoint pairwiseDisjoint (spans : list Span) : bool :=
  match spans with
  | [] => true
  | s :: rest => forallb (disjoint s) rest && pairwiseDisjoint rest
  end.

(** The spans of the siblings that can be the result. *)
Definition locatableSpans (xs : list Located) : list Span :=
  map spanOf (List.filter locatable xs).

(** The invariants at one node. *)
Definition wellFormedAt (x : Located) : bool :=
  validSpan (spanOf x)
  && forallb (contains (spanOf x)) (locatableSpans (childrenOf x))
  && pairwiseDisjoint (locatableSpans (childrenOf x)).

Fixpoint wellFormedAst (ast : AST) : bool :=
  wellFormedAt (Expr ast)
  && match ast with
     | PropertyRead _ receiver _ | SafePropertyRead _ receiver _ =>
         wellFormedAst receiver
     | KeyedRead _ obj key => wellFormedAst obj && wellFormedAst key
     | PropertyWrite _ receiver _ value =>
         wellFormedAst receiver && wellFormedAst value
     | KeyedWrite _ obj key value =>
         wellFormedAst obj && wellFormedAst key && wellFormedAst value
     | Binary _ _ lhs rhs => wellFormedAst lhs && wellFormedAst rhs
     | BindingPipe _ exp _ args => wellFormedAst exp && forallb wellFormedAst args
     | MethodCall _ receiver _ args | SafeMethodCall _ receiver _ args =>
         wellFormedAst receiver && forallb wellFormedAst args
     | LiteralArray _ expressions => forallb wellFormedAst expressions
     | LiteralMap _ _ values => forallb wellFormedAst values
     | Conditional _ condition trueExp falseExp =>
         wellFormedAst condition && wellFormedAst trueExp && wellFormedAst falseExp
     | LiteralPrimitive _ _ | EmptyExpr _ | ImplicitReceiver _ => true
     end.

Fixpoint wellFormedNode (node : Node) : bool :=
  wellFormedAt (Tmpl node)
  && match node with
     | Element _ _ attributes inputs outputs references children =>
         forallb wellFormedNode attributes && forallb wellFormedNode inputs
         && forallb wellFormedNode outputs && forallb wellFormedNode references
         && forallb wellFormedNode children
     | Template _ _ attributes inputs outputs references variables children =>
         forallb wellFormedNode attributes && forallb wellFormedNode inputs
         && forallb wellFormedNode outputs && forallb wellFormedNode references
         && forallb wellFormedNode variables && forallb wellFormedNode children
     | Content _ _ attributes => forallb wellFormedNode attributes
     | BoundAttribute _ _ value => wellFormedAst value
     | BoundEvent _ _ handler => wellFormedAst handler
     | Text _ _ parts => forallb wellFormedAst parts
     | TextAttribute _ _ _ | Reference _ _ _ | VariableNode _ _ _ | Icu _ => true
     end.

Definition wellFormedLocated (x : Located) : bool :=
  match x with
  | Tmpl node => wellFormedNode node
  | Expr ast => wellFormedAst ast
  end.

(** A well-formed template: well-formed roots whose spans do not overlap. *)
Definition wellFormed (nodes : list Node) : bool :=
  pairwiseDisjoint (map nodeSpan nodes) && forallb wellFormedNode nodes.

(** The best match so far, if any, is a node of the tree and a candidate at the
    position. *)
Definition candidateOf (nodes : list Node) (position : Z)
    (found : option Located) : Prop :=
  match found with
  | Some r => InTree nodes r /\ matchesAt position r = true
  | None => True
  end.

(** *** Trees of the templates of the test-suite

    The parser [parseTemplate] is not among the sources; the trees it returns
    for templates of the test-suite are written out here.  The offsets are
    those of the characters of each template, the cursor removed. *)

(** Modelled from the spec: the property read [title] of [{{ title }}], at
    offsets 3 to 8.  The span the parser gives to its implicit receiver is a
    parameter. *)
Definition titleRead (receiver : Span) : AST :=
  PropertyRead (mkSpan 3 8) (ImplicitReceiver receiver) "title".

(** Modelled from the spec: the tree of [{{ title }}], a text node whose
    interpolation holds [title]. *)
Definition titleInterpolation (receiver : Span) : list Node :=
  [Text (mkSpan 0 11) "{{ title }}" [titleRead receiver]].








(** Modelled from the spec: the property read [bar] of
    [<cmp [(foo)]="bar"></cmp>], at offsets 14 to 17. *)
Definition barRead : AST :=
  PropertyRead (mkSpan 14 17) (ImplicitReceiver (mkSpan 14 14)) "bar".

(** Modelled from the spec: the two nodes the two-way binding [[(foo)]="bar"]
    stands for, both over the text of the binding, offsets 5 to 18.  The first
    is the bound attribute [foo] with [bar] as its value. *)
Definition fooAttribute : Node := BoundAttribute (mkSpan 5 18) "foo" barRead.

(** Modelled from the spec: the second is the bound event [fooChange], whose
    handler is the assignment [bar = $event].  The handler has no text of its
    own; its nodes are given the span of [bar]. *)
Definition fooChangeEvent : Node :=
  BoundEvent (mkSpan 5 18) "fooChange"
    (PropertyWrite (mkSpan 14 17) (ImplicitReceiver (mkSpan 14 14)) "bar"
       (PropertyRead (mkSpan 14 17) (ImplicitReceiver (mkSpan 14 14)) "$event")).

(** Modelled from the spec: the tree of [<cmp [(foo)]="bar"></cmp>]. *)
Definition twoWayBinding : list Node :=
  [Element (mkSpan 0 25) "cmp" [] [fooAttribute] [fooChangeEvent] [] []].



End HybridVisitor.

(** ** The test helper [parse] of [hybrid_visitor_spec.ts]

    [parse] locates the cursor character in a template, removes it and hands
    the rest to the compiler's [parseTemplate], which is not among the
    sources and is a section variable here. *)

Module HybridVisitorSpec.

(** The cursor ['¦'] (U+00A6), a single code unit. *)
Definition cursor : ascii := ascii_of_nat 166.

(** [template.indexOf(c)] for a one-character search string [c]: the index of
    the first occurrence, [-1] when there is none. *)
Fixpoint indexOf (template : string) (c : ascii) : Z :=
  match template with
  | EmptyString => -1
  | String x rest =>
      if Ascii.eqb x c then 0
      else
        let i := indexOf rest c in
        if i <? 0 then -1 else i + 1
  end.

(** [template.replace(c, '')] for a one-character string pattern [c]: only the
    first occurrence is replaced. *)
Fixpoint removeFirst (template : string) (c : ascii) : string :=
  match template with
  | EmptyString => EmptyString
  | String x rest =>
      if Ascii.eqb x c then rest else String x (removeFirst rest c)
  end.

Section Parse.

(** The result type of [parseTemplate] and the function itself. *)
Variable ParsedTemplate : Type.
Variable parseTemplate : string -> string -> ParsedTemplate.

(** [{...parseTemplate(template, templateUrl), position}] *)
Record ParseResult : Type := mkParseResult {
  parsed : ParsedTemplate;
  position : Z
}.

(** [parse]; [None] stands for the [Error] thrown when the template does not
    contain the cursor. *)
Definition parse (template : string) : option ParseResult :=
  let position := indexOf template cursor in
  if position <? 0 then None
  else
    let template := removeFirst template cursor in
    let templateUrl := "/foo" in
    Some (mkParseResult (parseTemplate template templateUrl) position).

End Parse.

End HybridVisitorSpec.

(** * Properties of the serializer *)

Module Xliff2Facts.

Import Xliff2 Xliff2Output.

(** ** Properties of [getMessageId] *)

Section GetMessageId.

Variable useLegacyIds : bool.

Lemma isLegacyXliff2Id_atMost20Digits (s : string) :
  isLegacyXliff2Id s = atMost20Digits s.
Proof.
  unfold isLegacyXliff2Id, atMost20Digits, hasNonDigit,
    MAX_LEGACY_XLIFF_2_MESSAGE_LENGTH.
  f_equal.
  - destruct (Nat.leb_spec (String.length s) 20);
      [apply Z.leb_le | apply Z.leb_gt]; lia.
  - induction (list_ascii_of_string s) as [|c cs IH]; simpl; [done|].
    rewrite negb_orb, IH. f_equal. unfold nonDigit, isDecimalDigit.
    by rewrite negb_involutive.
Qed.

Lemma find_isLegacyXliff2Id (ids : list string) :
  Js.find isLegacyXliff2Id ids = List.find atMost20Digits ids.
Proof.
  induction ids as [|x ids IH]; simpl; [done|].
  by rewrite isLegacyXliff2Id_atMost20Digits, IH.
Qed.

(** Case analysis on every test the expression of [getMessageId] performs. *)
Ltac getMessageId_cases message :=
  destruct (customId message) as [?c|]; simpl;
  [destruct (String.eqb c "") eqn:?Ec; simpl; rewrite ?Ec; simpl; [|done]|];
  (destruct useLegacyIds; simpl; [|done]);
  (destruct (legacyIds message) as [?ids|]; simpl; [|done]);
  rewrite ?find_isLegacyXliff2Id;
  (destruct (List.find atMost20Digits ids) as [?x|]; simpl; [|done]);
  destruct (String.eqb x "") eqn:?Ex; simpl; rewrite ?Ex; simpl; done.

(** The expression of [getMessageId] always evaluates to a string. *)
Lemma getMessageIdValue_string (message : ParsedMessage) :
  getMessageIdValue useLegacyIds message = Js.Str (getMessageId useLegacyIds message).
Proof.
  unfold getMessageId, getMessageIdValue, Js.or, Js.and.
  getMessageId_cases message.
Qed.

(** C9 (amended): [getMessageId] returns [customId] when it is a non-empty
    string; otherwise, when [useLegacyIds] is true, [legacyIds] is defined and
    the first of its ids that has at most 20 characters, all decimal digits, is
    a non-empty string, it returns that id; otherwise it returns [id]. *)
Theorem getMessageId_selection (message : ParsedMessage) :
  getMessageId useLegacyIds message = getMessageId_amended useLegacyIds message.
Proof.
  unfold getMessageId, getMessageId_amended, getMessageIdValue, Js.or, Js.and.
  getMessageId_cases message.
Qed.

End GetMessageId.

(** C9 as worded does not hold: with legacy ids [""; "123"] the first id of at
    most 20 characters made only of decimal digits is the empty string, and
    [getMessageId] returns the canonical id (neither [""] nor ["123"]). *)
Lemma getMessageId_claimed_fails :
  getMessageId true messageWithEmptyLegacyId = "canonical"
  /\ getMessageId_claimed true messageWithEmptyLegacyId = ""
  /\ ~ (forall useLegacyIds message,
          getMessageId useLegacyIds message = getMessageId_claimed useLegacyIds message).
Proof.
  split; [reflexivity|]. split; [reflexivity|].
  intros H. specialize (H true messageWithEmptyLegacyId). discriminate H.
Qed.

(** ** What a run of a method writes *)

Lemma emits_ret {A : Type} (a : A) (n : N) : Emits (mret a) n a n [].
Proof. intros xs. unfold mret, M_ret. by rewrite app_nil_r. Qed.

Lemma emits_bind {A B : Type} (c : M A) (f : A -> M B) n a n1 calls1 b n2 calls2 :
  Emits c n a n1 calls1 -> Emits (f a) n1 b n2 calls2 ->
  Emits (c ≫= f) n b n2 (calls1 ++ calls2)%list.
Proof.
  intros Hc Hf xs. unfold mbind, M_bind. rewrite Hc, Hf. by rewrite app_assoc.
Qed.

Lemma emits_call (c : XmlFile.call) (n : N) : Emits (call c) n tt n [c].
Proof. by intros xs. Qed.

Lemma emits_postIncrement (n : N) : Emits postIncrement n n (n + 1) [].
Proof. intros xs. unfold postIncrement. simpl. by rewrite app_nil_r. Qed.

Lemma emits_setCurrentPlaceholderId (n m : N) :
  Emits (setCurrentPlaceholderId m) n tt m [].
Proof. intros xs. unfold setCurrentPlaceholderId. simpl. by rewrite app_nil_r. Qed.

Lemma emits_defined {A : Type} (o : option A) (a : A) (n : N) :
  o = Some a -> Emits (defined o) n a n [].
Proof. intros ->. apply emits_ret. Qed.

Lemma emits_serializePlaceholder n name sl :
  Emits (serializePlaceholder name sl) n tt (placeholderNext n name)
    [placeholderCall n name sl].
Proof.
  unfold serializePlaceholder, placeholderNext, placeholderCall.
  destruct (Js.startsWith name "START_").
  - eapply (emits_bind _ _ _ _ _ [] _ _ [_]); [apply emits_postIncrement|apply emits_call].
  - destruct (Js.startsWith name "CLOSE_").
    + apply emits_call.
    + eapply (emits_bind _ _ _ _ _ [] _ _ [_]); [apply emits_postIncrement|apply emits_call].
Qed.

Lemma index_lookup {A : Type} (l : list A) (i : Z) :
  0 <= i -> Js.index l i = l !! Z.to_nat i.
Proof. intros H. unfold Js.index. destruct (Z.ltb_spec i 0); [lia|done]. Qed.

(** *** The loops of [serializeTextPart] and [serializeMessage] *)

Section Runs.

Variable extractIcuPlaceholders : string -> list string.

Lemma piecesLoop (pieces : list string) :
  forall fuel rest i n,
    0 <= i -> drop (Z.to_nat i) pieces = rest ->
    (length rest <= S fuel)%nat ->
    Emits (forLoop fuel i (Z.of_nat (length pieces) - 1) 2 (fun i =>
             piece ← defined (Js.index pieces i);
             call (XmlFile.text piece);;
             placeholder ← defined (Js.index pieces (i + 1));
             serializePlaceholder placeholder None))
      n tt (snd (piecesCalls n rest)) (fst (piecesCalls n rest)).
Proof.
  induction fuel as [|fuel IH]; intros rest i n Hi Hdrop Hlen.
  - assert (Hlen' : (length pieces <= Z.to_nat i + 1)%nat).
    { rewrite <- Hdrop, length_drop in Hlen. lia. }
    simpl. destruct (Z.ltb_spec i (Z.of_nat (length pieces) - 1)); [lia|].
    destruct rest as [|a [|b rest]]; simpl in *; try apply emits_ret. lia.
  - simpl. destruct (Z.ltb_spec i (Z.of_nat (length pieces) - 1)) as [Hlt|Hge].
    + destruct rest as [|a [|b rest]].
      * rewrite <- Hdrop, <- length_zero_iff_nil, length_drop in *. lia. 
      * apply (f_equal length) in Hdrop. rewrite length_drop in Hdrop. simpl in Hdrop. lia.
      * assert (Ha : Js.index pieces i = Some a).
        { rewrite index_lookup by done. 
          pose proof (lookup_drop pieces (Z.to_nat i) 0) as Hl.
          rewrite Hdrop, Nat.add_0_r in Hl. by rewrite <- Hl. }
        assert (Hb : Js.index pieces (i + 1) = Some b).
        { rewrite index_lookup by lia.
          replace (Z.to_nat (i + 1)) with (Z.to_nat i + 1)%nat by lia.
          pose proof (lookup_drop pieces (Z.to_nat i) 1) as Hl.
          rewrite Hdrop in Hl. by rewrite <- Hl. }
        simpl. destruct (piecesCalls (placeholderNext n b) rest) as [calls n'] eqn:E.
        simpl.
        eapply (emits_bind _ _ _ _ _ [_; _]).
        { eapply (emits_bind _ _ _ _ _ []); [by apply emits_defined|].
          eapply (emits_bind _ _ _ _ _ [_] _ _ [_]); [apply emits_call|].
          eapply (emits_bind _ _ _ _ _ []); [by apply emits_defined|].
          apply emits_serializePlaceholder. }
        intros xs.
        specialize (IH rest (i + 2) (placeholderNext n b)).
        rewrite E in IH. apply IH; [lia| |simpl in Hlen; lia].
        replace (Z.to_nat (i + 2)) with (Z.to_nat i + 2)%nat by lia.
        rewrite <- drop_drop, Hdrop. done.
    + assert (Hlen' : (length rest <= 1)%nat).
      { rewrite <- Hdrop, length_drop. lia. }
      destruct rest as [|a [|b rest]]; simpl in *; try apply emits_ret. lia.
Qed.

(** [extractIcuPlaceholders] returns the text pieces and the ICU placeholder
    names between them; there is always a first text piece. *)
Hypothesis pieces_nonempty : forall text, extractIcuPlaceholders text <> [].

Lemma index_last (l : list string) :
  l <> [] -> Js.index l (Z.of_nat (length l) - 1) = Some (List.last l "").
Proof.
  intros Hl. destruct l as [|x l] using rev_ind; [done|].
  rewrite index_lookup, length_app, last_last by (rewrite length_app; simpl; lia).
  simpl. replace (Z.to_nat _) with (length l + 0)%nat by lia.
  by rewrite lookup_app_r, Nat.add_comm, Nat.add_sub by lia.
Qed.

Lemma emits_serializeTextPart (n : N) (text : string) :
  Emits (serializeTextPart extractIcuPlaceholders text) n tt
    (snd (textPartCalls extractIcuPlaceholders n text))
    (fst (textPartCalls extractIcuPlaceholders n text)).
Proof.
  unfold serializeTextPart, textPartCalls.
  pose proof (piecesLoop (extractIcuPlaceholders text)
    (Z.to_nat (Z.of_nat (length (extractIcuPlaceholders text)) - 1))
    (extractIcuPlaceholders text) 0 n) as Hloop.
  destruct (piecesCalls n (extractIcuPlaceholders text)) as [calls n'] eqn:E.
  simpl in *.
  eapply emits_bind; [apply Hloop; [done|done|lia]|].
  eapply (emits_bind _ _ _ _ _ []);
    [apply emits_defined, index_last, pieces_nonempty|apply emits_call].
Qed.

Lemma partsCalls_cons n a b rest name names sl :
  partsCalls extractIcuPlaceholders n (a :: b :: rest) (name :: names) sl =
  let '(calls1, n1) := textPartCalls extractIcuPlaceholders n a in
  let '(calls2, n2) :=
    partsCalls extractIcuPlaceholders (placeholderNext n1 name) (b :: rest) names sl in
  ((calls1 ++ placeholderCall n1 name sl :: calls2)%list, n2).
Proof. reflexivity. Qed.

Lemma partsLoop (parts names : list string) sl :
  length parts = S (length names) ->
  forall fuel restParts restNames i n,
    0 <= i ->
    drop (Z.to_nat i) parts = restParts ->
    drop (Z.to_nat i) names = restNames ->
    (length restParts <= S fuel)%nat ->
    Emits (forLoop fuel i (Z.of_nat (length parts) - 1) 1 (fun i =>
             part ← defined (Js.index parts i);
             serializeTextPart extractIcuPlaceholders part;;
             placeholderName ← defined (Js.index names i);
             serializePlaceholder placeholderName sl))
      n tt (snd (partsCalls extractIcuPlaceholders n restParts restNames sl))
      (fst (partsCalls extractIcuPlaceholders n restParts restNames sl)).
Proof.
  intros Hwf.
  induction fuel as [|fuel IH]; intros restParts restNames i n Hi Hparts Hnames Hlen;
    simpl; destruct (Z.ltb_spec i (Z.of_nat (length parts) - 1)) as [Hlt|Hge].
  - rewrite <- Hparts, length_drop in Hlen. lia.
  - assert (Hlen' : (length restParts <= 1)%nat).
    { rewrite <- Hparts, length_drop. lia. }
    destruct restParts as [|a [|b restParts]]; simpl in *; try apply emits_ret. lia.
  - assert (H2 : (2 <= length restParts)%nat).
    { rewrite <- Hparts, length_drop. lia. }
    assert (H1 : (1 <= length restNames)%nat).
    { rewrite <- Hnames, length_drop. lia. }
    destruct restParts as [|a [|b restParts]]; simpl in H2; try lia.
    destruct restNames as [|name restNames]; simpl in H1; try lia.
    assert (Ha : Js.index parts i = Some a).
    { rewrite index_lookup by done.
      pose proof (lookup_drop parts (Z.to_nat i) 0) as Hl.
      rewrite Hparts, Nat.add_0_r in Hl. by rewrite <- Hl. }
    assert (Hb : Js.index names i = Some name).
    { rewrite index_lookup by done.
      pose proof (lookup_drop names (Z.to_nat i) 0) as Hl.
      rewrite Hnames, Nat.add_0_r in Hl. by rewrite <- Hl. }
    pose proof (emits_serializeTextPart n a) as Htext.
    rewrite partsCalls_cons.
    destruct (textPartCalls extractIcuPlaceholders n a) as [calls1 n1] eqn:E1.
    specialize (IH (b :: restParts) restNames (i + 1) (placeholderNext n1 name)).
    destruct (partsCalls extractIcuPlaceholders (placeholderNext n1 name)
                (b :: restParts) restNames sl) as [calls2 n2] eqn:E2.
    cbn [fst snd] in *.
    replace (calls1 ++ placeholderCall n1 name sl :: calls2)%list
      with ((calls1 ++ [placeholderCall n1 name sl]) ++ calls2)%list
      by (by rewrite <- app_assoc).
    eapply emits_bind.
    { eapply (emits_bind _ _ _ _ _ []); [by apply emits_defined|].
      eapply emits_bind; [apply Htext|].
      eapply (emits_bind _ _ _ _ _ []); [by apply emits_defined|].
      apply emits_serializePlaceholder. }
    apply IH; [lia| | |simpl in Hlen |- *; lia].
    + replace (Z.to_nat (i + 1)) with (Z.to_nat i + 1)%nat by lia.
      by rewrite <- drop_drop, Hparts.
    + replace (Z.to_nat (i + 1)) with (Z.to_nat i + 1)%nat by lia.
      by rewrite <- drop_drop, Hnames.
  - assert (Hlen' : (length restParts <= 1)%nat).
    { rewrite <- Hparts, length_drop. lia. }
    destruct restParts as [|a [|b restParts]]; simpl in *; try apply emits_ret. lia.
Qed.

Lemma emits_serializeMessage (message : ParsedMessage) (n : N) :
  length (messageParts message) = S (length (placeholderNames message)) ->
  Emits (serializeMessage extractIcuPlaceholders message) n tt
    (snd (messageCalls extractIcuPlaceholders message))
    (fst (messageCalls extractIcuPlaceholders message)).
Proof.
  intros Hwf. unfold serializeMessage, messageCalls.
  pose proof (partsLoop (messageParts message) (placeholderNames message)
    (substitutionLocations message) Hwf
    (Z.to_nat (Z.of_nat (length (messageParts message)) - 1))
    (messageParts message) (placeholderNames message) 0 0) as Hloop.
  destruct (partsCalls extractIcuPlaceholders 0 (messageParts message)
              (placeholderNames message) (substitutionLocations message))
    as [calls1 n1] eqn:E1.
  pose proof (emits_serializeTextPart n1 (List.last (messageParts message) "")) as Htext.
  destruct (textPartCalls extractIcuPlaceholders n1 (List.last (messageParts message) ""))
    as [calls2 n2] eqn:E2.
  simpl in *.
  eapply (emits_bind _ _ _ _ _ []); [apply emits_setCurrentPlaceholderId|].
  eapply emits_bind; [apply Hloop; [done|done|done|lia]|].
  eapply (emits_bind _ _ _ _ _ []); [|apply Htext].
  apply emits_defined, index_last. intros E. by rewrite E in Hwf.
Qed.
End Runs.

(** ** Shape of what [serializeMessage] writes *)

Lemma substring_all (s : string) : substring 0 (String.length s) s = s.
Proof. induction s as [|c s IH]; simpl; [done|]. by rewrite IH. Qed.

Lemma startsWith_START_inv (name : string) :
  Js.startsWith name "START_" = true ->
  exists rest, name = "START_" +:+ rest.
Proof.
  unfold Js.startsWith. intros H%String.prefix_correct. simpl in H.
  do 6 (destruct name as [|? name]; simpl in H; [discriminate|];
        injection H as <- H).
  by exists name.
Qed.

Lemma replaceStartWithClose_matchingClose (name : string) :
  Js.startsWith name "START_" = true ->
  replaceStartWithClose name = matchingClose name.
Proof.
  intros [rest ->]%startsWith_START_inv.
  unfold replaceStartWithClose, matchingClose. simpl.
  by rewrite Nat.sub_0_r, substring_all.
Qed.

Lemma attribute_setIfDefined_ne key key' value attrs :
  String.eqb key' key = false ->
  attribute key (setIfDefined key' value attrs) = attribute key attrs.
Proof.
  intros Hne. destruct value as [v|]; simpl; [|done].
  induction attrs as [|[k w] attrs IH]; simpl.
  - by rewrite Hne.
  - by rewrite IH.
Qed.

Lemma placeholderCall_renders n name sl :
  renders name (placeholderCall n name sl) = true.
Proof.
  unfold renders, placeholderCall.
  destruct (Js.startsWith name "START_") eqn:Hs.
  - rewrite !attribute_setIfDefined_ne by done. simpl.
    rewrite replaceStartWithClose_matchingClose by done.
    rewrite !bool_decide_eq_true_2; done.
  - destruct (Js.startsWith name "CLOSE_") eqn:Hc; [done|].
    rewrite !attribute_setIfDefined_ne by done. simpl.
    rewrite !bool_decide_eq_true_2; done.
Qed.

Lemma placeholderCall_isPlaceholderTag n name sl :
  isPlaceholderTag (placeholderCall n name sl) = true.
Proof.
  unfold placeholderCall.
  destruct (Js.startsWith name "START_"); [done|].
  by destruct (Js.startsWith name "CLOSE_").
Qed.

Lemma isPlaceholderTag_not_text c : isPlaceholderTag c = true -> isText c = false.
Proof. by destruct c. Qed.

Lemma alternates_app calls1 tag calls2 :
  alternates calls1 = true -> isPlaceholderTag tag = true ->
  alternates calls2 = true ->
  alternates (calls1 ++ tag :: calls2) = true.
Proof.
  intros H1 Ht H2. revert H1.
  induction calls1 as [calls1 IH] using (induction_ltof1 _ (@length _)).
  unfold ltof in IH.
  destruct calls1 as [|[| |t] [|tag' calls1]]; try done.
  - intros _. simpl. by rewrite Ht, H2.
  - simpl. intros [Ht' H1]%andb_prop. rewrite Ht'. simpl.
    apply IH; [simpl; lia|done].
Qed.

Section Shape.
Variable extractIcuPlaceholders : string -> list string.

(** What the loop of [serializeTextPart] writes, followed by a text, alternates. *)
Lemma piecesCalls_alternates pieces : forall n t,
  alternates (fst (piecesCalls n pieces) ++ [XmlFile.text t]) = true.
Proof.
  induction pieces as [pieces IH] using (induction_ltof1 _ (@length _)).
  unfold ltof in IH. intros n t.
  destruct pieces as [|a [|b rest]]; try done.
  simpl. specialize (IH rest ltac:(simpl; lia) (placeholderNext n b) t).
  destruct (piecesCalls (placeholderNext n b) rest) as [calls n'].
  simpl in *. by rewrite placeholderCall_isPlaceholderTag, IH.
Qed.

Lemma textPartCalls_alternates n text :
  alternates (fst (textPartCalls extractIcuPlaceholders n text)) = true.
Proof.
  unfold textPartCalls.
  pose proof (piecesCalls_alternates (extractIcuPlaceholders text) n
                (List.last (extractIcuPlaceholders text) "")) as H.
  by destruct (piecesCalls n (extractIcuPlaceholders text)).
Qed.

Lemma partsCalls_alternates sl parts : forall names n calls,
  alternates calls = true ->
  alternates (fst (partsCalls extractIcuPlaceholders n parts names sl) ++ calls) = true.
Proof.
  induction parts as [|a parts IH]; intros names n calls Hc; [done|].
  destruct parts as [|b parts]; [done|].
  destruct names as [|name names]; [done|].
  rewrite partsCalls_cons.
  pose proof (textPartCalls_alternates n a) as Ha.
  destruct (textPartCalls extractIcuPlaceholders n a) as [calls1 n1].
  specialize (IH names (placeholderNext n1 name) calls Hc).
  destruct (partsCalls extractIcuPlaceholders (placeholderNext n1 name)
              (b :: parts) names sl) as [calls2 n2].
  cbn [fst snd] in *. rewrite <- app_assoc. simpl.
  apply alternates_app; [done|apply placeholderCall_isPlaceholderTag|done].
Qed.

Lemma messageCalls_alternates message :
  alternates (fst (messageCalls extractIcuPlaceholders message)) = true.
Proof.
  unfold messageCalls.
  pose proof (partsCalls_alternates (substitutionLocations message)
                (messageParts message) (placeholderNames message) 0) as H1.
  destruct (partsCalls extractIcuPlaceholders 0 (messageParts message)
              (placeholderNames message) (substitutionLocations message))
    as [calls1 n1].
  pose proof (textPartCalls_alternates n1 (List.last (messageParts message) "")) as H2.
  destruct (textPartCalls extractIcuPlaceholders n1 (List.last (messageParts message) ""))
    as [calls2 n2].
  by apply H1.
Qed.

(** Tags and placeholders correspond one to one, in order. *)
Lemma tagsOf_app calls1 calls2 : tagsOf (calls1 ++ calls2) = (tagsOf calls1 ++ tagsOf calls2)%list.
Proof. unfold tagsOf. by rewrite List.filter_app. Qed.

Lemma tagsOf_placeholderCall n name sl :
  tagsOf [placeholderCall n name sl] = [placeholderCall n name sl].
Proof.
  unfold tagsOf. simpl.
  by rewrite (isPlaceholderTag_not_text _ (placeholderCall_isPlaceholderTag n name sl)).
Qed.

Lemma piecesCalls_cons n a b rest :
  piecesCalls n (a :: b :: rest) =
  let '(calls, n') := piecesCalls (placeholderNext n b) rest in
  (XmlFile.text a :: placeholderCall n b None :: calls, n').
Proof. reflexivity. Qed.

Lemma piecesCalls_renders pieces : forall n,
  Forall2 (fun name tag => renders name tag = true)
    (piecesPlaceholders pieces) (tagsOf (fst (piecesCalls n pieces))).
Proof.
  induction pieces as [pieces IH] using (induction_ltof1 _ (@length _)).
  unfold ltof in IH. intros n.
  destruct pieces as [|a [|b rest]]; try (by constructor).
  rewrite piecesCalls_cons.
  specialize (IH rest ltac:(simpl; lia) (placeholderNext n b)).
  destruct (piecesCalls (placeholderNext n b) rest) as [calls n'].
  change (XmlFile.text a :: placeholderCall n b None :: calls)
    with ([XmlFile.text a] ++ [placeholderCall n b None] ++ calls)%list.
  cbn [fst] in *. rewrite !tagsOf_app, tagsOf_placeholderCall.
  constructor; [apply placeholderCall_renders|done].
Qed.

Lemma textPartCalls_renders n text :
  Forall2 (fun name tag => renders name tag = true)
    (piecesPlaceholders (extractIcuPlaceholders text))
    (tagsOf (fst (textPartCalls extractIcuPlaceholders n text))).
Proof.
  unfold textPartCalls.
  pose proof (piecesCalls_renders (extractIcuPlaceholders text) n) as H.
  destruct (piecesCalls n (extractIcuPlaceholders text)) as [calls n'].
  cbn [fst] in *. rewrite tagsOf_app. simpl. by rewrite app_nil_r.
Qed.

Lemma partsCalls_renders sl parts : forall names n,
  Forall2 (fun name tag => renders name tag = true)
    (partsPlaceholders extractIcuPlaceholders parts names)
    (tagsOf (fst (partsCalls extractIcuPlaceholders n parts names sl))).
Proof.
  induction parts as [|a parts IH]; intros names n; [by constructor|].
  destruct parts as [|b parts]; [by constructor|].
  destruct names as [|name names]; [by constructor|].
  rewrite partsCalls_cons.
  pose proof (textPartCalls_renders n a) as Ha.
  destruct (textPartCalls extractIcuPlaceholders n a) as [calls1 n1].
  specialize (IH names (placeholderNext n1 name)).
  destruct (partsCalls extractIcuPlaceholders (placeholderNext n1 name)
              (b :: parts) names sl) as [calls2 n2].
  cbn [fst snd] in *.
  change (partsPlaceholders extractIcuPlaceholders (a :: b :: parts) (name :: names))
    with (piecesPlaceholders (extractIcuPlaceholders a)
            ++ name :: partsPlaceholders extractIcuPlaceholders (b :: parts) names)%list.
  change (placeholderCall n1 name sl :: calls2)
    with ([placeholderCall n1 name sl] ++ calls2)%list.
  rewrite !tagsOf_app, tagsOf_placeholderCall.
  apply Forall2_app; [done|].
  constructor; [apply placeholderCall_renders|done].
Qed.

Lemma messageCalls_renders message :
  Forall2 (fun name tag => renders name tag = true)
    (writtenPlaceholders extractIcuPlaceholders message)
    (tagsOf (fst (messageCalls extractIcuPlaceholders message))).
Proof.
  unfold messageCalls, writtenPlaceholders.
  pose proof (partsCalls_renders (substitutionLocations message)
                (messageParts message) (placeholderNames message) 0) as H1.
  destruct (partsCalls extractIcuPlaceholders 0 (messageParts message)
              (placeholderNames message) (substitutionLocations message))
    as [calls1 n1].
  pose proof (textPartCalls_renders n1 (List.last (messageParts message) "")) as H2.
  destruct (textPartCalls extractIcuPlaceholders n1 (List.last (messageParts message) ""))
    as [calls2 n2].
  cbn [fst] in *. rewrite tagsOf_app. by apply Forall2_app.
Qed.

End Shape.

Lemma nested_closedByMatching names tags :
  Forall2 (fun name tag => renders name tag = true) names tags ->
  forall expected,
    properlyNested expected names = true ->
    pcClosedByMatching expected (zip names tags) = true.
Proof.
  induction 1 as [|name tag names tags Hr _ IH]; intros expected Hn; [done|].
  simpl in *. unfold renders in Hr.
  destruct (Js.startsWith name "START_").
  - destruct tag as [tname attrs options| |]; try done.
    apply andb_prop in Hr as [[[Hname _]%andb_prop He%bool_decide_eq_true]%andb_prop Hs].
    rewrite Hname, Hs, He. simpl. by apply IH.
  - destruct (Js.startsWith name "CLOSE_").
    + destruct tag as [|tname options|]; try done. rewrite Hr.
      destruct expected as [|e expected]; [done|].
      apply andb_prop in Hn as [-> Hn]. simpl. by apply IH.
    + destruct tag as [tname attrs options| |]; try done.
      apply andb_prop in Hr as [[Hname _]%andb_prop Hs%bool_decide_eq_true].
      apply String.eqb_eq in Hname as ->. simpl. by apply IH.
Qed.

Lemma closedByMatching_depth written : forall open,
  pcClosedByMatching open written = true ->
  pcDepth (length open) (written.*2) = Some 0%nat.
Proof.
  induction written as [|[name tag] written IH]; intros open H; simpl in *.
  - by apply bool_decide_eq_true in H as ->.
  - destruct tag as [tname attrs options|tname options|t]; simpl.
    + destruct (String.eqb tname "pc" && bool_decide (XmlFile.selfClosing options <> Some true)).
      * destruct (attribute "equivEnd" attrs) as [e|]; [|done].
        by apply (IH (e :: open)).
      * by apply IH.
    + destruct (String.eqb tname "pc"); [|by apply IH].
      destruct open as [|e open]; [done|].
      apply andb_prop in H as [_ H]. by apply IH.
    + by apply IH.
Qed.

Lemma pcDepth_tagsOf calls : forall depth,
  pcDepth depth (tagsOf calls) = pcDepth depth calls.
Proof.
  induction calls as [|c calls IH]; intros depth; [done|].
  destruct c as [tname attrs options|tname options|t]; simpl.
  - destruct (_ && _); apply IH.
  - destruct (String.eqb tname "pc"); [|apply IH].
    destruct depth; [done|apply IH].
  - apply IH.
Qed.

Lemma nested_balanced names calls :
  Forall2 (fun name tag => renders name tag = true) names (tagsOf calls) ->
  properlyNested [] names = true ->
  pcBalanced calls = true.
Proof.
  intros Hr Hn. apply bool_decide_eq_true.
  rewrite <- pcDepth_tagsOf.
  pose proof (closedByMatching_depth _ _ (nested_closedByMatching _ _ Hr [] Hn)) as H.
  by rewrite (snd_zip names (tagsOf calls)) in H
    by (by rewrite (Forall2_length _ _ _ Hr)).
Qed.

(** ** What the [XmlFile] makes of the calls *)

Lemma openElements_app calls1 : forall calls2 open open1,
  openElements open calls1 = Some open1 ->
  openElements open (calls1 ++ calls2) = openElements open1 calls2.
Proof.
  induction calls1 as [|c calls1 IH]; intros calls2 open open1 H; simpl in *.
  - by injection H as ->.
  - destruct c as [name attrs options|name options|str].
    + destruct (bool_decide _); by apply IH.
    + destruct open as [|innermost open']; [done|].
      destruct (String.eqb innermost name); [by apply IH|done].
    + by apply IH.
Qed.

Lemma openElements_tagsOf calls : forall open,
  openElements open (tagsOf calls) = openElements open calls.
Proof.
  induction calls as [|c calls IH]; intros open; [done|].
  destruct c as [name attrs options|name options|str]; simpl.
  - destruct (bool_decide _); apply IH.
  - destruct open as [|innermost open']; [done|].
    destruct (String.eqb innermost name); [apply IH|done].
  - apply IH.
Qed.

(** The tags of properly nested placeholders close the [<pc>] elements they
    open, and no other element. *)
Lemma nested_openElements names tags :
  Forall2 (fun name tag => renders name tag = true) names tags ->
  forall expected open,
    properlyNested expected names = true ->
    openElements (replicate (length expected) "pc" ++ open) tags = Some open.
Proof.
  induction 1 as [|name tag names tags Hr _ IH]; intros expected open Hn.
  - simpl in *. by apply bool_decide_eq_true in Hn as ->.
  - simpl in Hn. unfold renders in Hr.
    destruct (Js.startsWith name "START_").
    + destruct tag as [tname attrs options| |]; try done.
      apply andb_prop in Hr as [[[Hname%String.eqb_eq _]%andb_prop _]%andb_prop
                                Hs%bool_decide_eq_true].
      simpl. rewrite bool_decide_eq_false_2 by done. subst tname.
      apply (IH (matchingClose name :: expected)), Hn.
    + destruct (Js.startsWith name "CLOSE_").
      * destruct tag as [|tname options|]; try done.
        apply String.eqb_eq in Hr as ->.
        destruct expected as [|e expected]; [done|].
        apply andb_prop in Hn as [_ Hn]. simpl. by apply IH.
      * destruct tag as [tname attrs options| |]; try done.
        apply andb_prop in Hr as [_ Hs%bool_decide_eq_true].
        simpl. rewrite bool_decide_eq_true_2 by done. by apply IH.
Qed.

(** With every [CLOSE_*] after an unclosed [START_*], each [endTag('pc')]
    finds a [<pc>] of the message innermost. *)
Lemma unclosed_openElements names tags :
  Forall2 (fun name tag => renders name tag = true) names tags ->
  forall depth depth' open,
    unclosedStarts depth names = Some depth' ->
    openElements (replicate depth "pc" ++ open) tags = Some (replicate depth' "pc" ++ open)%list.
Proof.
  induction 1 as [|name tag names tags Hr _ IH]; intros depth depth' open Hn.
  - simpl in *. by injection Hn as ->.
  - simpl in Hn. unfold renders in Hr.
    destruct (Js.startsWith name "START_").
    + destruct tag as [tname attrs options| |]; try done.
      apply andb_prop in Hr as [[[Hname%String.eqb_eq _]%andb_prop _]%andb_prop
                                Hs%bool_decide_eq_true].
      simpl. rewrite bool_decide_eq_false_2 by done. subst tname.
      apply (IH (S depth)), Hn.
    + destruct (Js.startsWith name "CLOSE_").
      * destruct tag as [|tname options|]; try done.
        apply String.eqb_eq in Hr as ->.
        destruct depth as [|depth]; [done|]. simpl. by apply IH.
      * destruct tag as [tname attrs options| |]; try done.
        apply andb_prop in Hr as [_ Hs%bool_decide_eq_true].
        simpl. rewrite bool_decide_eq_true_2 by done. by apply IH.
Qed.

Section Message.
Variable extractIcuPlaceholders : string -> list string.
Hypothesis pieces_nonempty : forall text, extractIcuPlaceholders text <> [].

(** The [XmlFile] takes the calls of a message in which every [CLOSE_*] comes
    after an unclosed [START_*], whatever elements are open before. *)
Lemma messageCalls_accepted message depth open :
  unclosedStarts 0 (writtenPlaceholders extractIcuPlaceholders message) = Some depth ->
  openElements open (fst (messageCalls extractIcuPlaceholders message))
  = Some (replicate depth "pc" ++ open)%list.
Proof.
  intros Hn. rewrite <- openElements_tagsOf.
  apply (unclosed_openElements _ _ (messageCalls_renders extractIcuPlaceholders message)
           0%nat depth open Hn).
Qed.

(** C8 (amended): for a message with one more message part than placeholder
    names in which every [CLOSE_*] placeholder comes after a [START_*]
    placeholder that is still unclosed, [serializeMessage] returns normally:
    the [XmlFile] takes its calls, each [endTag('pc')] closing a [<pc>] of the
    message, and [depth] of them are left open.  What it writes is text parts
    and placeholder tags strictly alternating, starting and ending with a text
    part; the tags are, in order, the renderings of the placeholders: [<pc>]
    with both names of the pair for a [START_*], [</pc>] for a [CLOSE_*],
    [<ph/>] otherwise.  When the [START_*]/[CLOSE_*] placeholders of the message
    are properly nested pairs, every [<pc>] is closed by the tag written for its
    matching [CLOSE_*] placeholder and the [<pc>] tags are balanced. *)
Theorem serializeMessage_shape (message : ParsedMessage) (n : N) (depth : nat) :
  wellFormed message ->
  unclosedStarts 0 (writtenPlaceholders extractIcuPlaceholders message) = Some depth ->
  exists calls n',
    Emits (serializeMessage extractIcuPlaceholders message) n tt n' calls
    /\ (forall open, openElements open calls = Some (replicate depth "pc" ++ open)%list)
    /\ alternates calls = true
    /\ Forall2 (fun name tag => renders name tag = true)
         (writtenPlaceholders extractIcuPlaceholders message) (tagsOf calls)
    /\ (properlyNested [] (writtenPlaceholders extractIcuPlaceholders message) = true ->
        pcClosedByMatching []
          (zip (writtenPlaceholders extractIcuPlaceholders message) (tagsOf calls)) = true
        /\ pcBalanced calls = true).
Proof.
  intros Hwf Hclose.
  exists (fst (messageCalls extractIcuPlaceholders message)),
         (snd (messageCalls extractIcuPlaceholders message)).
  split; [by apply emits_serializeMessage|].
  split; [intros open; by apply messageCalls_accepted|].
  split; [apply messageCalls_alternates|].
  split; [apply messageCalls_renders|].
  intros Hn. split.
  - by apply nested_closedByMatching; [apply messageCalls_renders|].
  - by eapply nested_balanced; [apply messageCalls_renders|].
Qed.
End Message.

(** C8 on [boldMessage], with a splitter that finds no ICU placeholder. *)
Lemma serializeMessage_shape_witness :
  exists calls n',
    Emits (serializeMessage (fun text => [text]) boldMessage) 7 tt n' calls
    /\ (forall open, openElements open calls = Some open)
    /\ alternates calls = true
    /\ pcClosedByMatching []
         (zip (writtenPlaceholders (fun text => [text]) boldMessage) (tagsOf calls)) = true
    /\ pcBalanced calls = true.
Proof.
  destruct (serializeMessage_shape (fun text => [text]) ltac:(done) boldMessage 7 0
              ltac:(reflexivity) ltac:(reflexivity))
    as (calls & n' & He & Ho & Ha & _ & Hn).
  exists calls, n'. split; [done|]. split; [exact Ho|]. split; [done|].
  apply Hn. reflexivity.
Defined.

(** C8 as worded does not hold for every message: the [<pc>] opened for the
    [START_BOLD_TEXT] of [unclosedMessage] is never closed. *)
Lemma serializeMessage_unclosed_pc :
  wellFormed unclosedMessage
  /\ run (serializeMessage (fun text => [text]) unclosedMessage) (mkState 0 []) =
     Some (tt, mkState 1
       [XmlFile.text "a";
        XmlFile.startTag "pc"
          [("id", "0"); ("equivStart", "START_BOLD_TEXT"); ("equivEnd", "CLOSE_BOLD_TEXT")]
          XmlFile.noOptions;
        XmlFile.text "b"])
  /\ pcBalanced
       [XmlFile.text "a";
        XmlFile.startTag "pc"
          [("id", "0"); ("equivStart", "START_BOLD_TEXT"); ("equivEnd", "CLOSE_BOLD_TEXT")]
          XmlFile.noOptions;
        XmlFile.text "b"] = false
  /\ ~ (forall message s s',
          run (serializeMessage (fun text => [text]) message) s = Some (tt, s') ->
          pcBalanced (drop (length (xml s)) (xml s')) = true).
Proof.
  split; [reflexivity|]. split; [reflexivity|]. split; [reflexivity|].
  intros H. specialize (H unclosedMessage (mkState 0 []) _ eq_refl). discriminate H.
Qed.

(** ** Units of the serialized file *)

Lemma emits_serializeNote name value n :
  Emits (serializeNote name value) n tt n (noteCalls name value).
Proof.
  unfold serializeNote, noteCalls.
  eapply (emits_bind _ _ _ _ _ [_] _ _ [_; _]); [apply emits_call|].
  eapply (emits_bind _ _ _ _ _ [_] _ _ [_]); apply emits_call.
Qed.

Lemma emits_if {A : Type} (b : bool) (c1 c2 : M A) n a n' calls1 calls2 :
  (b = true -> Emits c1 n a n' calls1) ->
  (b = false -> Emits c2 n a n' calls2) ->
  Emits (if b then c1 else c2) n a n' (if b then calls1 else calls2).
Proof. destruct b; auto. Qed.

Lemma emits_option {A B : Type} (o : option B) (c1 : B -> M A) (c2 : M A)
    n a n' (calls1 : B -> list XmlFile.call) calls2 :
  (forall b, Emits (c1 b) n a n' (calls1 b)) ->
  Emits c2 n a n' calls2 ->
  Emits (match o with Some b => c1 b | None => c2 end) n a n'
    (match o with Some b => calls1 b | None => calls2 end).
Proof. destruct o; auto. Qed.

Lemma unitIds_app calls1 calls2 :
  unitIds (calls1 ++ calls2) = (unitIds calls1 ++ unitIds calls2)%list.
Proof. unfold unitIds. apply omap_app. Qed.

Lemma unitIds_alternates calls : alternates calls = true -> unitIds calls = [].
Proof.
  induction calls as [calls IH] using (induction_ltof1 _ (@length _)).
  unfold ltof in IH.
  destruct calls as [|[| |t] [|tag calls]]; try done.
  simpl. intros [Ht Hc]%andb_prop.
  rewrite (IH calls) by (simpl; lia || done).
  destruct tag as [name attrs options| |]; try done.
  simpl in Ht. destruct (String.eqb_spec name "unit") as [->|]; [done|done].
Qed.

Section Units.

Variable sourceLocale : string.
Variable basePath : string.
Variable useLegacyIds : bool.
Variable relative : string -> string -> string.
Variable extractIcuPlaceholders : string -> list string.
Variable toString : list XmlFile.call -> string.

Hypothesis pieces_nonempty : forall text, extractIcuPlaceholders text <> [].

Local Abbreviation getMessageId := (getMessageId useLegacyIds).
Local Abbreviation serializeUnit := (serializeUnit basePath relative extractIcuPlaceholders).
Local Abbreviation unitCallsOf := (unitCallsOf basePath relative extractIcuPlaceholders).
Local Abbreviation unitCalls := (unitCalls basePath useLegacyIds relative extractIcuPlaceholders).
Local Abbreviation serializeMessages :=
  (serializeMessages basePath useLegacyIds relative extractIcuPlaceholders).
Local Abbreviation renderedMessages := (renderedMessages useLegacyIds).
Local Abbreviation firstWithIdOf := (firstWithIdOf useLegacyIds).

Lemma emits_serializeUnit id message n :
  wellFormed message ->
  Emits (serializeUnit id message) n tt
    (snd (messageCalls extractIcuPlaceholders message)) (unitCallsOf id message).
Proof.
  intros Hwf. unfold Xliff2.serializeUnit, Xliff2.unitCallsOf, notesCalls.
  eapply (emits_bind _ _ _ _ _ [_]); [apply emits_call|].
  eapply emits_bind.
  { apply emits_if with (calls2 := []); intros _; [|apply emits_ret].
    eapply (emits_bind _ _ _ _ _ [_]); [apply emits_call|].
    eapply emits_bind.
    { apply (emits_option (location message) _ _ _ _ _
               (fun loc => noteCalls "location" (locationNote basePath relative loc)) []);
        [intros loc; apply emits_serializeNote|apply emits_ret]. }
    eapply emits_bind.
    { apply emits_if with (calls2 := []); intros _;
        [apply emits_serializeNote|apply emits_ret]. }
    eapply emits_bind.
    { apply emits_if with (calls2 := []); intros _;
        [apply emits_serializeNote|apply emits_ret]. }
    apply emits_call. }
  eapply (emits_bind _ _ _ _ _ [_]); [apply emits_call|].
  eapply (emits_bind _ _ _ _ _ [_]); [apply emits_call|].
  eapply emits_bind; [by apply emits_serializeMessage|].
  eapply (emits_bind _ _ _ _ _ [_]); [apply emits_call|].
  eapply (emits_bind _ _ _ _ _ [_] _ _ [_]); apply emits_call.
Qed.

Lemma unitCalls_unitCallsOf message :
  wellFormed message -> unitCalls message = unitCallsOf (getMessageId message) message.
Proof.
  intros Hwf. unfold Xliff2.unitCalls, run.
  by rewrite (emits_serializeUnit (getMessageId message) message 0 Hwf []).
Qed.

Lemma unitIds_unitCallsOf id message : unitIds (unitCallsOf id message) = [id].
Proof.
  unfold Xliff2.unitCallsOf.
  change (unitIds (?c :: ?l)) with (unitIds ([c] ++ l)).
  rewrite !unitIds_app.
  rewrite (unitIds_alternates _ (messageCalls_alternates extractIcuPlaceholders message)).
  assert (unitIds (notesCalls basePath relative message) = []) as ->; [|done].
  unfold notesCalls. destruct (Js.truthy _); [|done].
  change (unitIds (?c :: ?l)) with (unitIds ([c] ++ l)).
  rewrite !unitIds_app.
  destruct (location message); destruct (Js.truthy (Js.ofOption (description message)));
    destruct (Js.truthy (Js.ofOption (meaning message))); done.
Qed.

Lemma emits_serializeMessages messages : forall ids n,
  Forall wellFormed messages ->
  exists n',
    Emits (serializeMessages ids messages) n tt n'
      (flat_map unitCalls (renderedMessages ids messages)).
Proof.
  induction messages as [|message rest IH]; intros ids n Hwf.
  - exists n. apply emits_ret.
  - apply Forall_cons in Hwf as [Hm Hrest]. simpl.
    destruct (bool_decide (getMessageId message ∈ ids)).
    + by apply IH.
    + destruct (IH ({[getMessageId message]} ∪ ids)
                  (snd (messageCalls extractIcuPlaceholders message)) Hrest) as [n' He].
      exists n'. simpl. eapply emits_bind; [|apply He].
      rewrite unitCalls_unitCallsOf by done. by apply emits_serializeUnit.
Qed.

Lemma renderedMessages_sublist messages : forall ids,
  sublist (renderedMessages ids messages) messages.
Proof.
  induction messages as [|message rest IH]; intros ids; simpl; [constructor|].
  destruct (bool_decide _); [apply sublist_cons|apply sublist_skip]; apply IH.
Qed.

Lemma renderedMessages_unseen messages : forall ids m,
  In m (renderedMessages ids messages) -> getMessageId m ∉ ids.
Proof.
  induction messages as [|message rest IH]; intros ids m; simpl; [done|].
  destruct (bool_decide_reflect (getMessageId message ∈ ids)) as [Hin|Hnin].
  - apply IH.
  - intros [<-|Hm]; [done|]. apply IH in Hm. set_solver.
Qed.

Lemma renderedMessages_NoDup messages : forall ids,
  List.NoDup (map getMessageId (renderedMessages ids messages)).
Proof.
  induction messages as [|message rest IH]; intros ids; simpl; [constructor|].
  destruct (bool_decide _); [apply IH|].
  simpl. constructor; [|apply IH].
  intros (m & Hid & Hm)%in_map_iff. apply renderedMessages_unseen in Hm. set_solver.
Qed.

Lemma renderedMessages_first messages : forall ids m,
  In m messages -> getMessageId m ∉ ids ->
  firstWithIdOf m (renderedMessages ids messages) = firstWithIdOf m messages.
Proof.
  unfold Xliff2.firstWithIdOf.
  induction messages as [|message rest IH]; intros ids m Hin Hnin; [done|].
  simpl. destruct (bool_decide_reflect (getMessageId message ∈ ids)) as [Hseen|Hnew].
  - destruct (String.eqb_spec (getMessageId message) (getMessageId m)) as [E|E];
      [congruence|].
    destruct Hin as [Hx|Hin]; [by subst|]. by apply IH.
  - simpl. destruct (String.eqb_spec (getMessageId message) (getMessageId m)) as [E|E];
      [done|].
    destruct Hin as [Hx|Hin]; [by subst|]. apply IH; [done|].
    apply not_elem_of_union. split; [|done].
    apply not_elem_of_singleton. congruence.
Qed.

Lemma unitIds_flat_map messages :
  Forall wellFormed messages ->
  unitIds (flat_map unitCalls messages) = map getMessageId messages.
Proof.
  induction 1 as [|message rest Hm _ IH]; [done|].
  simpl. rewrite unitIds_app, IH, unitCalls_unitCallsOf, unitIds_unitCallsOf by done.
  done.
Qed.

(** The [XmlFile] takes the calls of the units of messages whose placeholders
    are properly nested pairs, and every element they open is closed. *)
Lemma openElements_messageCalls message open :
  properlyNested [] (writtenPlaceholders extractIcuPlaceholders message) = true ->
  openElements open (fst (messageCalls extractIcuPlaceholders message)) = Some open.
Proof.
  intros Hn. rewrite <- openElements_tagsOf.
  apply (nested_openElements _ _ (messageCalls_renders extractIcuPlaceholders message)
           [] open Hn).
Qed.

Lemma openElements_notesCalls message open :
  openElements open (notesCalls basePath relative message) = Some open.
Proof.
  unfold notesCalls.
  destruct (Js.truthy (Js.or _ _)); [|done].
  destruct (location message);
    destruct (Js.truthy (Js.ofOption (description message)));
    destruct (Js.truthy (Js.ofOption (meaning message))); done.
Qed.

Lemma openElements_unitCallsOf id message open :
  properlyNested [] (writtenPlaceholders extractIcuPlaceholders message) = true ->
  openElements open (unitCallsOf id message) =
  Some open.
Proof.
  intros Hn. unfold Xliff2.unitCallsOf.
  change (openElements open (?c :: ?l)) with (openElements ("unit" :: open) l).
  rewrite (openElements_app _ _ _ _ (openElements_notesCalls message _)).
  change (openElements ("unit" :: open) ([?c1; ?c2] ++ ?l))
    with (openElements ("source" :: "segment" :: "unit" :: open) l).
  by rewrite (openElements_app _ _ _ _ (openElements_messageCalls message _ Hn)).
Qed.

Lemma openElements_units messages open :
  Forall wellFormed messages ->
  Forall (fun m => properlyNested [] (writtenPlaceholders extractIcuPlaceholders m) = true)
    messages ->
  openElements open
    (flat_map unitCalls messages) =
  Some open.
Proof.
  induction 1 as [|message rest Hwf _ IH]; intros Hn; [done|].
  apply Forall_cons in Hn as [Hm Hrest]. simpl.
  rewrite (openElements_app _ _ _ open); [by apply IH|].
  rewrite unitCalls_unitCallsOf by done.
  by apply openElements_unitCallsOf.
Qed.

(** C10: [serialize] writes one [<unit>] per distinct message id.  For
    messages with one more message part than placeholder names whose
    [START_*]/[CLOSE_*] placeholders are properly nested pairs, [serialize]
    returns and the [XmlFile] takes its calls, those of a well-nested document.
    The units written are those of a sub-list [rendered] of the input, in input
    order; their ids are pairwise different and are exactly the ids of the
    input; and for every input message, the rendered message carrying its id
    is the first message of the input with that id, so every later one is
    skipped. *)
Theorem serialize_one_unit_per_id (messages : list ParsedMessage) (placeholderId : N) :
  Forall wellFormed messages ->
  Forall (fun m => properlyNested [] (writtenPlaceholders extractIcuPlaceholders m) = true)
    messages ->
  exists rendered calls,
    serializeCalls sourceLocale basePath useLegacyIds relative extractIcuPlaceholders
      messages placeholderId = Some calls
    /\ openElements [] calls = Some []
    /\ serialize sourceLocale basePath useLegacyIds relative extractIcuPlaceholders
         toString messages placeholderId = Some (toString calls)
    /\ calls = (prologue sourceLocale ++ flat_map unitCalls rendered ++ epilogue)%list
    /\ unitIds calls = map getMessageId rendered
    /\ List.NoDup (unitIds calls)
    /\ (forall id, In id (unitIds calls) <-> In id (map getMessageId messages))
    /\ sublist rendered messages
    /\ (forall m, In m messages -> firstWithIdOf m rendered = firstWithIdOf m messages).
Proof.
  intros Hwf Hnested.
  destruct (emits_serializeMessages messages ∅ placeholderId Hwf) as [n' He].
  set (rendered := renderedMessages ∅ messages) in *.
  assert (Hsub : sublist rendered messages) by apply renderedMessages_sublist.
  assert (Hopen : openElements []
            (prologue sourceLocale ++ flat_map unitCalls rendered ++ epilogue)
          = Some []).
  { change (openElements [] (prologue sourceLocale ++ ?l))
      with (openElements ["file"; "xliff"] l).
    rewrite (openElements_app _ _ _ ["file"; "xliff"]); [done|].
    apply openElements_units.
    - rewrite Forall_forall in Hwf |- *. intros m Hm. apply Hwf.
      eapply elem_of_sublist; [exact Hm|apply Hsub].
    - rewrite Forall_forall in Hnested |- *. intros m Hm. apply Hnested.
      eapply elem_of_sublist; [exact Hm|apply Hsub]. }
  assert (Hfirst : forall m, In m messages ->
            firstWithIdOf m rendered = firstWithIdOf m messages).
  { intros m Hm. apply renderedMessages_first; [done|set_solver]. }
  assert (Hcalls : serializeCalls sourceLocale basePath useLegacyIds relative
            extractIcuPlaceholders messages placeholderId =
          Some (prologue sourceLocale ++ flat_map unitCalls rendered ++ epilogue)%list).
  { unfold serializeCalls, run.
    assert (Hbody : Emits
      (call (XmlFile.startTag "xliff"
               [("version", "2.0"); ("xmlns", "urn:oasis:names:tc:xliff:document:2.0");
                ("srcLang", sourceLocale)] XmlFile.noOptions);;
       call (XmlFile.startTag "file" [("id", "ngi18n"); ("original", "ng.template")]
               XmlFile.noOptions);;
       serializeMessages ∅ messages;;
       call (XmlFile.endTag "file" XmlFile.noOptions);;
       call (XmlFile.endTag "xliff" XmlFile.noOptions))
      placeholderId tt n'
      (prologue sourceLocale ++ flat_map unitCalls rendered ++ epilogue)%list).
    { unfold prologue, epilogue.
      eapply (emits_bind _ _ _ _ _ [_]); [apply emits_call|].
      eapply (emits_bind _ _ _ _ _ [_]); [apply emits_call|].
      eapply emits_bind; [apply He|].
      eapply (emits_bind _ _ _ _ _ [_] _ _ [_]); apply emits_call. }
    by rewrite (Hbody []). }
  assert (Hids : unitIds (prologue sourceLocale ++ flat_map unitCalls rendered ++ epilogue)
                 = map getMessageId rendered).
  { rewrite !unitIds_app, unitIds_flat_map.
    - simpl. by rewrite app_nil_r.
    - rewrite Forall_forall in Hwf |- *. intros m Hm. apply Hwf.
      eapply elem_of_sublist; [exact Hm|apply Hsub]. }
  exists rendered, (prologue sourceLocale ++ flat_map unitCalls rendered ++ epilogue)%list.
  split; [done|]. split; [exact Hopen|]. split; [unfold serialize; by rewrite Hcalls|].
  split; [done|]. split; [done|]. rewrite Hids.
  split; [apply renderedMessages_NoDup|].
  split; [|done].
  intros id. rewrite !in_map_iff. split.
  - intros (m & <- & Hm). exists m. split; [done|].
    apply list_elem_of_In. eapply elem_of_sublist; [by apply list_elem_of_In|apply Hsub].
  - intros (m & <- & Hm). specialize (Hfirst m Hm).
    unfold Xliff2.firstWithIdOf in Hfirst.
    destruct (List.find (fun m0 => String.eqb (getMessageId m0) (getMessageId m)) messages)
      as [m0|] eqn:E.
    + apply find_some in Hfirst as [Hin Hid]. apply String.eqb_eq in Hid. eauto.
    + apply (find_none _ _ E) in Hm. by rewrite String.eqb_refl in Hm.
Qed.

End Units.

(** C10 on three messages, the second repeating the id of the first. *)
Lemma serialize_one_unit_per_id_witness :
  exists rendered calls,
    serializeCalls "en" "/" false (fun _ f => f) (fun text => [text])
      [boldMessage; repeatedMessage; describedMessage] 0 = Some calls
    /\ openElements [] calls = Some []
    /\ serialize "en" "/" false (fun _ f => f) (fun text => [text]) (fun _ => "")
         [boldMessage; repeatedMessage; describedMessage] 0 = Some ""
    /\ calls = (prologue "en"
                 ++ flat_map (unitCalls "/" false (fun _ f => f) (fun text => [text])) rendered
                 ++ epilogue)%list
    /\ unitIds calls = map (getMessageId false) rendered
    /\ List.NoDup (unitIds calls)
    /\ (forall id, In id (unitIds calls) <->
                   In id (map (getMessageId false)
                            [boldMessage; repeatedMessage; describedMessage]))
    /\ sublist rendered [boldMessage; repeatedMessage; describedMessage]
    /\ (forall m, In m [boldMessage; repeatedMessage; describedMessage] ->
          firstWithIdOf false m rendered =
          firstWithIdOf false m [boldMessage; repeatedMessage; describedMessage]).
Proof.
  apply (serialize_one_unit_per_id "en" "/" false (fun _ f => f) (fun text => [text])
           (fun _ => "") ltac:(done) [boldMessage; repeatedMessage; describedMessage] 0).
  - repeat constructor.
  - repeat constructor.
Defined.

End Xliff2Facts.

(** * Properties of the position resolver *)

Module HybridVisitorFacts.

Import HybridVisitor.

(** ** The visit of a node, uniformly *)

Lemma firstDescendant_app {A : Type} (f : option Located -> A -> option Located)
    (xs ys : list A) (found : option Located) :
  firstDescendant f (xs ++ ys) found
  = firstDescendant f xs (firstDescendant f ys found).
Proof.
  induction xs as [|x xs IH]; simpl; [done|]. by rewrite IH.
Qed.

Lemma fold_visit_Expr p l : forall found,
  firstDescendant (visitLocated p) (map Expr l) found
  = firstDescendant (visitAst p) l found.
Proof. induction l as [|a l IH]; intros found; simpl; [done|by rewrite IH]. Qed.

Lemma fold_visit_Tmpl p l : forall found,
  firstDescendant (visitLocated p) (map Tmpl l) found
  = firstDescendant (visit p) l found.
Proof. induction l as [|a l IH]; intros found; simpl; [done|by rewrite IH]. Qed.

Lemma visitAst_unfold p found ast :
  visitAst p found ast =
  if matchesAt p (Expr ast)
  then firstDescendant (visitLocated p) (childrenOf (Expr ast)) (Some (Expr ast))
  else found.
Proof.
  unfold matchesAt.
  destruct ast; cbn [visitAst locatable andb spanOf astSpan childrenOf astChildren map];
    try (destruct (isWithin p span); [|done]); cbn [firstDescendant visitLocated];
    rewrite ?fold_visit_Expr; done.
Qed.

Lemma visit_unfold p found node :
  visit p found node =
  if matchesAt p (Tmpl node)
  then firstDescendant (visitLocated p) (childrenOf (Tmpl node)) (Some (Tmpl node))
  else found.
Proof.
  unfold matchesAt.
  destruct node; cbn [visit locatable andb spanOf nodeSpan childrenOf];
    (destruct (isWithin p sourceSpan); [|done]);
    rewrite ?map_app, ?firstDescendant_app, ?fold_visit_Tmpl, ?fold_visit_Expr; done.
Qed.

Lemma visitLocated_unfold p found x :
  visitLocated p found x =
  if matchesAt p x
  then firstDescendant (visitLocated p) (childrenOf x) (Some x)
  else found.
Proof. destruct x; [apply visit_unfold|apply visitAst_unfold]. Qed.

Lemma findNodeAtPosition_fold nodes p :
  findNodeAtPosition nodes p = firstDescendant (visitLocated p) (map Tmpl nodes) None.
Proof. unfold findNodeAtPosition, visitAll. by rewrite fold_visit_Tmpl. Qed.

(** The visit of siblings keeps a best match. *)
Lemma firstDescendant_present {A : Type} (f : option Located -> A -> option Located)
    (xs : list A) (found : option Located) :
  found <> None -> firstDescendant f xs found <> None.
Proof.
  intros Hf. induction xs as [|x xs IH]; simpl; [done|].
  by destruct (f None x).
Qed.

(** Started without a best match, the visit of a node yields one exactly when
    the node is a candidate. *)
Lemma visitLocated_None p x :
  visitLocated p None x = None <-> matchesAt p x = false.
Proof.
  rewrite visitLocated_unfold. destruct (matchesAt p x); [|done].
  split; [|done]. intros H. by apply firstDescendant_present in H.
Qed.

(** ** Induction on the children *)

Lemma list_sum_In {A : Type} (f : A -> nat) (l : list A) (a : A) :
  In a l -> (f a <= list_sum (map f l))%nat.
Proof.
  induction l as [|b l IH]; simpl; [done|].
  intros [->|H]; [lia|]. specialize (IH H). lia.
Qed.

Lemma sizeOf_child x c : In c (childrenOf x) -> (sizeOf c < sizeOf x)%nat.
Proof.
  destruct x as [node|ast].
  - destruct node; cbn [childrenOf]; try done;
      rewrite ?in_map_iff; try (intros (n & <- & Hn); revert Hn;
        rewrite ?in_app_iff; cbn [sizeOf sizeNode];
        intros Hn; repeat destruct Hn as [Hn|Hn];
        apply (list_sum_In sizeNode) in Hn || apply (list_sum_In sizeAst) in Hn; lia).
    + intros [<-|[]]. simpl. lia.
    + intros [<-|[]]. simpl. lia.
  - cbn [childrenOf]. rewrite in_map_iff. intros (a & <- & Ha).
    destruct ast; cbn [astChildren sizeOf sizeAst] in *;
      repeat (destruct Ha as [<-|Ha]; [lia|]); try done;
      apply (list_sum_In sizeAst) in Ha; lia.
Qed.

Lemma Located_children_ind (P : Located -> Prop) :
  (forall x, (forall c, In c (childrenOf x) -> P c) -> P x) ->
  forall x, P x.
Proof.
  intros step x.
  induction x as [x IH] using (induction_ltof1 _ sizeOf).
  apply step. intros c Hc. apply IH. unfold ltof. by apply sizeOf_child.
Qed.

(** ** Well-formedness, uniformly *)

Lemma forallb_map {A B : Type} (f : B -> bool) (g : A -> B) (l : list A) :
  forallb f (map g l) = forallb (fun a => f (g a)) l.
Proof. induction l as [|a l IH]; simpl; [done|by rewrite IH]. Qed.

Lemma wellFormedLocated_unfold x :
  wellFormedLocated x =
  wellFormedAt x && forallb wellFormedLocated (childrenOf x).
Proof.
  destruct x as [node|ast].
  - destruct node; cbn [wellFormedLocated wellFormedNode childrenOf]; f_equal;
      rewrite ?forallb_map, ?forallb_app, ?andb_assoc, ?andb_true_r; try done;
      cbn [forallb wellFormedLocated]; by rewrite andb_true_r.
  - destruct ast; cbn [wellFormedLocated wellFormedAst childrenOf astChildren map forallb];
      f_equal; rewrite ?forallb_map, ?andb_assoc, ?andb_true_r; try done.
Qed.

Lemma wellFormedLocated_at x : wellFormedLocated x = true -> wellFormedAt x = true.
Proof. rewrite wellFormedLocated_unfold. by intros [? _]%andb_prop. Qed.

Lemma wellFormedLocated_child x c :
  wellFormedLocated x = true -> In c (childrenOf x) -> wellFormedLocated c = true.
Proof.
  rewrite wellFormedLocated_unfold. intros [_ H]%andb_prop Hc.
  rewrite forallb_forall in H. by apply H.
Qed.

Lemma wellFormedLocated_below x y :
  SelfOrBelow x y -> wellFormedLocated x = true -> wellFormedLocated y = true.
Proof.
  induction 1 as [x|x c y Hc _ IH]; [done|].
  intros Hx. apply IH. by apply (wellFormedLocated_child x).
Qed.

(** ** Spans *)

Lemma isWithin_spec p s :
  isWithin p s = true <-> span_start s <= p <= span_end s.
Proof. unfold isWithin. rewrite andb_true_iff, !Z.leb_le. done. Qed.

Lemma contains_isWithin p outer inner :
  contains outer inner = true -> isWithin p inner = true -> isWithin p outer = true.
Proof.
  unfold contains. rewrite andb_true_iff, !Z.leb_le, !isWithin_spec. lia.
Qed.

Lemma disjoint_isWithin p a b :
  disjoint a b = true -> isWithin p a = true -> isWithin p b = false.
Proof.
  unfold disjoint. rewrite Z.ltb_lt, isWithin_spec. intros Hd Ha.
  apply not_true_is_false. rewrite isWithin_spec. lia.
Qed.

Lemma locatable_parent x c : In c (childrenOf x) -> locatable x = true.
Proof. destruct x as [node|ast]; [done|]. by destruct ast. Qed.

Lemma child_contained x c :
  wellFormedAt x = true -> In c (childrenOf x) -> locatable c = true ->
  contains (spanOf x) (spanOf c) = true.
Proof.
  unfold wellFormedAt, locatableSpans.
  intros [[_ H]%andb_prop _]%andb_prop Hc Hl.
  rewrite forallb_forall in H. apply H.
  apply in_map, filter_In. done.
Qed.

(** A candidate below a well-formed node makes the node a candidate. *)
Lemma matchesAt_above p x y :
  SelfOrBelow x y -> wellFormedLocated x = true ->
  matchesAt p y = true -> matchesAt p x = true.
Proof.
  induction 1 as [x|x c y Hc _ IH]; [done|].
  intros Hx Hy.
  specialize (IH (wellFormedLocated_child x c Hx Hc) Hy).
  unfold matchesAt in *. apply andb_prop in IH as [Hl Hw].
  rewrite (locatable_parent x c Hc). simpl.
  eapply contains_isWithin; [|exact Hw].
  apply child_contained; [by apply wellFormedLocated_at|done|done].
Qed.

(** Among siblings whose spans do not overlap, one candidate at most. *)
Lemma candidate_unique p xs : 
  pairwiseDisjoint (locatableSpans xs) = true ->
  forall x y, In x xs -> In y xs ->
  matchesAt p x = true -> matchesAt p y = true -> x = y.
Proof.
  unfold locatableSpans.
  induction xs as [|z xs IH]; intros Hd x y Hx Hy Mx My; [done|].
  assert (Hhead : forall u, In u xs -> matchesAt p z = true ->
                  matchesAt p u = true -> False).
  { intros u Hu [Lz Wz]%andb_prop [Lu Wu]%andb_prop.
    simpl in Hd. rewrite Lz in Hd. simpl in Hd.
    apply andb_prop in Hd as [Hd _]. rewrite forallb_forall in Hd.
    specialize (Hd (spanOf u)).
    rewrite (disjoint_isWithin p _ _ (Hd ltac:(by apply in_map, filter_In)) Wz) in Wu.
    done. }
  assert (Htail : pairwiseDisjoint (map spanOf (List.filter locatable xs)) = true).
  { simpl in Hd. destruct (locatable z); [|done].
    simpl in Hd. by apply andb_prop in Hd as [_ Hd]. }
  destruct Hx as [->|Hx], Hy as [->|Hy]; try done.
  - by destruct (Hhead y).
  - by destruct (Hhead x).
  - by apply IH.
Qed.

Lemma visit_siblings_none p xs : forall found,
  (forall x, In x xs -> matchesAt p x = false) ->
  firstDescendant (visitLocated p) xs found = found.
Proof.
  induction xs as [|x xs IH]; intros found H; [done|].
  simpl. rewrite (proj2 (visitLocated_None p x)) by (apply H; by left).
  apply IH. intros y Hy. apply H. by right.
Qed.

(** The first candidate among the siblings decides. *)
Lemma visit_siblings_first p xs : forall found x,
  List.find (matchesAt p) xs = Some x ->
  firstDescendant (visitLocated p) xs found =
  firstDescendant (visitLocated p) (childrenOf x) (Some x).
Proof.
  induction xs as [|z xs IH]; intros found x Hfind; [done|].
  simpl in *. destruct (matchesAt p z) eqn:Mz.
  - injection Hfind as ->. rewrite visitLocated_unfold, Mz.
    destruct (firstDescendant (visitLocated p) (childrenOf x) (Some x)) eqn:E; [done|].
    by apply firstDescendant_present in E.
  - rewrite (proj2 (visitLocated_None p z) Mz). by apply IH.
Qed.

Lemma find_candidate p xs x :
  In x xs -> matchesAt p x = true ->
  exists z, List.find (matchesAt p) xs = Some z.
Proof.
  intros Hx Mx. destruct (List.find (matchesAt p) xs) as [z|] eqn:E; [by exists z|].
  by rewrite (find_none _ _ E x Hx) in Mx.
Qed.

Lemma visit_siblings_one p xs : forall found x,
  pairwiseDisjoint (locatableSpans xs) = true ->
  In x xs -> matchesAt p x = true ->
  firstDescendant (visitLocated p) xs found =
  firstDescendant (visitLocated p) (childrenOf x) (Some x).
Proof.
  intros found x Hd Hx Mx.
  destruct (find_candidate p xs x Hx Mx) as [z Hz].
  rewrite (visit_siblings_first p xs found z Hz).
  apply find_some in Hz as [Hin Mz].
  by rewrite (candidate_unique p xs Hd z x Hin Hx Mz Mx).
Qed.

Lemma SelfOrBelow_inv x y :
  SelfOrBelow x y ->
  y = x \/ exists c, In c (childrenOf x) /\ SelfOrBelow c y.
Proof. destruct 1; eauto. Qed.

(** ** The result below one node *)

Lemma visit_deepest p : forall x,
  wellFormedLocated x = true -> matchesAt p x = true ->
  exists r,
    (forall found, visitLocated p found x = Some r)
    /\ SelfOrBelow x r
    /\ matchesAt p r = true
    /\ (forall c, In c (childrenOf r) -> matchesAt p c = false)
    /\ (forall y, SelfOrBelow x y -> matchesAt p y = true -> SelfOrBelow y r).
Proof.
  induction x as [x IH] using Located_children_ind. intros Hwf Mx.
  destruct (existsb (matchesAt p) (childrenOf x)) eqn:E.
  - apply existsb_exists in E as (c & Hc & Mc).
    assert (Hd : pairwiseDisjoint (locatableSpans (childrenOf x)) = true).
    { apply wellFormedLocated_at in Hwf. unfold wellFormedAt in Hwf.
      by apply andb_prop in Hwf as [_ Hwf]. }
    destruct (IH c Hc (wellFormedLocated_child x c Hwf Hc) Mc)
      as (r & Hr & Hbelow & Mr & Hleaf & Hall).
    exists r. repeat split; try done.
    + intros found. rewrite visitLocated_unfold, Mx.
      rewrite (visit_siblings_one p _ (Some x) c Hd Hc Mc).
      specialize (Hr None). by rewrite visitLocated_unfold, Mc in Hr.
    + by apply (sob_child x c).
    + intros y Hy My.
      destruct (SelfOrBelow_inv x y Hy) as [->|(c' & Hc' & Hy')].
      * by apply (sob_child x c).
      * assert (Mc' : matchesAt p c' = true).
        { apply (matchesAt_above p c' y); try done.
          by apply (wellFormedLocated_child x). }
        assert (c' = c) as -> by (by apply (candidate_unique p (childrenOf x))).
        by apply Hall.
  - exists x.
    assert (Hnone : forall c, In c (childrenOf x) -> matchesAt p c = false).
    { intros c Hc. destruct (matchesAt p c) eqn:Mc; [|done].
      assert (existsb (matchesAt p) (childrenOf x) = true)
        by (apply existsb_exists; eauto).
      congruence. }
    repeat split; try done.
    + intros found. rewrite visitLocated_unfold, Mx. by apply visit_siblings_none.
    + constructor.
    + intros y Hy My.
      destruct (SelfOrBelow_inv x y Hy) as [->|(c' & Hc' & Hy')]; [constructor|].
      assert (Mc' : matchesAt p c' = true).
      { apply (matchesAt_above p c' y); try done.
        by apply (wellFormedLocated_child x). }
      by rewrite Hnone in Mc'.
Qed.

(** ** The result over the roots *)

Lemma locatableSpans_roots nodes : locatableSpans (map Tmpl nodes) = map nodeSpan nodes.
Proof.
  unfold locatableSpans. induction nodes as [|n nodes IH]; simpl; [done|].
  by rewrite IH.
Qed.

Lemma wellFormed_disjoint nodes :
  wellFormed nodes = true ->
  pairwiseDisjoint (locatableSpans (map Tmpl nodes)) = true.
Proof. unfold wellFormed. rewrite locatableSpans_roots. by intros [? _]%andb_prop. Qed.

Lemma wellFormed_root nodes root :
  wellFormed nodes = true -> In root nodes -> wellFormedLocated (Tmpl root) = true.
Proof.
  unfold wellFormed. intros [_ H]%andb_prop Hr.
  rewrite forallb_forall in H. by apply H.
Qed.

Lemma wellFormed_InTree nodes y :
  wellFormed nodes = true -> InTree nodes y -> wellFormedLocated y = true.
Proof.
  intros Hwf (root & Hr & Hy).
  apply (wellFormedLocated_below (Tmpl root)); [done|by apply (wellFormed_root nodes)].
Qed.

Lemma findNodeAtPosition_outside nodes p :
  (forall root, In root nodes -> isWithin p (nodeSpan root) = false) ->
  findNodeAtPosition nodes p = None.
Proof.
  intros H. rewrite findNodeAtPosition_fold. apply visit_siblings_none.
  intros x (root & <- & Hr)%in_map_iff. unfold matchesAt. simpl. by apply H.
Qed.

Lemma findNodeAtPosition_inside nodes p root :
  wellFormed nodes = true -> In root nodes -> isWithin p (nodeSpan root) = true ->
  exists r,
    findNodeAtPosition nodes p = Some r
    /\ SelfOrBelow (Tmpl root) r
    /\ matchesAt p r = true
    /\ (forall c, In c (childrenOf r) -> matchesAt p c = false)
    /\ (forall y, InTree nodes y -> matchesAt p y = true -> SelfOrBelow y r).
Proof.
  intros Hwf Hr Hw.
  assert (Mr : matchesAt p (Tmpl root) = true) by done.
  destruct (visit_deepest p (Tmpl root) (wellFormed_root nodes root Hwf Hr) Mr)
    as (r & Hv & Hbelow & Mres & Hleaf & Hall).
  exists r. repeat split; try done.
  - rewrite findNodeAtPosition_fold.
    rewrite (visit_siblings_one p _ None (Tmpl root));
      [|by apply wellFormed_disjoint|by apply in_map|done].
    specialize (Hv None). by rewrite visitLocated_unfold, Mr in Hv.
  - intros y (root' & Hr' & Hy) My.
    assert (Mr' : matchesAt p (Tmpl root') = true).
    { apply (matchesAt_above p _ y); [done|by apply (wellFormed_root nodes)|done]. }
    assert (Tmpl root' = Tmpl root) as E.
    { apply (candidate_unique p (map Tmpl nodes));
        [by apply wellFormed_disjoint|by apply in_map|by apply in_map|done|done]. }
    rewrite E in Hy. by apply Hall.
Qed.

Lemma findNodeAtPosition_cases nodes p :
  wellFormed nodes = true ->
  (findNodeAtPosition nodes p = None
   /\ forall y, InTree nodes y -> matchesAt p y = false)
  \/ (exists r,
        findNodeAtPosition nodes p = Some r
        /\ InTree nodes r
        /\ matchesAt p r = true
        /\ (forall c, In c (childrenOf r) -> matchesAt p c = false)
        /\ (forall y, InTree nodes y -> matchesAt p y = true -> SelfOrBelow y r)).
Proof.
  intros Hwf.
  destruct (existsb (fun root => isWithin p (nodeSpan root)) nodes) eqn:E.
  - apply existsb_exists in E as (root & Hr & Hw). right.
    destruct (findNodeAtPosition_inside nodes p root Hwf Hr Hw)
      as (r & Hf & Hbelow & Mr & Hleaf & Hall).
    exists r. repeat split; try done. by exists root.
  - left.
    assert (Hout : forall root, In root nodes -> isWithin p (nodeSpan root) = false).
    { intros root Hr. destruct (isWithin p (nodeSpan root)) eqn:Hw; [|done].
      assert (existsb (fun root => isWithin p (nodeSpan root)) nodes = true)
        by (apply existsb_exists; eauto).
      congruence. }
    split; [by apply findNodeAtPosition_outside|].
    intros y (root & Hr & Hy). destruct (matchesAt p y) eqn:My; [|done].
    assert (Mr : matchesAt p (Tmpl root) = true).
    { apply (matchesAt_above p _ y); [done|by apply (wellFormed_root nodes)|done]. }
    unfold matchesAt in Mr. simpl in Mr. by rewrite (Hout root Hr) in Mr.
Qed.

(** A candidate of the tree without a candidate child is the result. *)
Lemma findNodeAtPosition_innermost nodes position y :
  wellFormed nodes = true ->
  InTree nodes y -> matchesAt position y = true ->
  (forall c, In c (childrenOf y) -> matchesAt position c = false) ->
  findNodeAtPosition nodes position = Some y.
Proof.
  intros Hwf Hy My Hyleaf.
  destruct (findNodeAtPosition_cases nodes position Hwf)
    as [[_ Hno]|(r & Hf & Hin & Mr & Hleaf & Hall)].
  - by rewrite (Hno y Hy) in My.
  - rewrite Hf. f_equal.
    destruct (SelfOrBelow_inv y r (Hall y Hy My)) as [->|(c & Hc & Hcr)]; [done|].
    assert (Mc : matchesAt position c = true).
    { apply (matchesAt_above position c r); [done| |done].
      apply (wellFormedLocated_child y); [by apply (wellFormed_InTree nodes)|done]. }
    by rewrite (Hyleaf c Hc) in Mc.
Qed.


(** Membership of a concrete node in a concrete tree. *)
Ltac in_tree :=
  eexists; split; [simpl; eauto 10|];
  repeat first [apply sob_self | eapply sob_child; [simpl; eauto 10|]].






(** ** The implicit receiver *)

Lemma SelfOrBelow_child x y c :
  SelfOrBelow x y -> In c (childrenOf y) -> SelfOrBelow x c.
Proof.
  induction 1 as [x|x c' y Hc' _ IH]; intros Hc.
  - apply (sob_child x c); [done|constructor].
  - apply (sob_child x c'); [done|by apply IH].
Qed.

Lemma InTree_child nodes x c :
  InTree nodes x -> In c (childrenOf x) -> InTree nodes c.
Proof.
  intros (root & Hr & Hx) Hc. exists root. split; [done|].
  by apply (SelfOrBelow_child _ x).
Qed.

Lemma visit_siblings_invariant (P : option Located -> Prop) p xs :
  (forall x, In x xs -> P (visitLocated p None x) \/ visitLocated p None x = None) ->
  forall found, P found -> P (firstDescendant (visitLocated p) xs found).
Proof.
  induction xs as [|x xs IH]; intros H found Hf; [done|].
  simpl. destruct (H x ltac:(by left)) as [Hx|Hx].
  - destruct (visitLocated p None x); [done|].
    apply IH; [intros y Hy; apply H; by right|done].
  - rewrite Hx. apply IH; [intros y Hy; apply H; by right|done].
Qed.

(** Whatever the tree, a visit leaves a candidate of the tree, or nothing, in
    the accumulator. *)
Lemma visitLocated_candidate nodes p : forall x found,
  InTree nodes x -> candidateOf nodes p found ->
  candidateOf nodes p (visitLocated p found x).
Proof.
  induction x as [x IH] using Located_children_ind. intros found Hx Hf.
  rewrite visitLocated_unfold. destruct (matchesAt p x) eqn:Mx; [|done].
  apply visit_siblings_invariant; [|done].
  intros c Hc. left. apply IH; [done|by apply (InTree_child nodes x)|done].
Qed.

Lemma findNodeAtPosition_candidate nodes p :
  candidateOf nodes p (findNodeAtPosition nodes p).
Proof.
  rewrite findNodeAtPosition_fold. apply visit_siblings_invariant; [|done].
  intros x (root & <- & Hroot)%in_map_iff. left.
  apply visitLocated_candidate; [|done].
  exists root. split; [done|constructor].
Qed.

(** C3: implicit-receiver exclusion.  [findNodeAtPosition] never returns an
    [ImplicitReceiver]; when the position lies in an expression node and the
    only children whose span holds it are implicit receivers, the descent
    returns that parent, which then is the result of [findNodeAtPosition] on a
    well-formed tree; and at the cursor immediately before [title] in
    [{{ title }}] the result is the [PropertyRead] named [title], whatever
    span the receiver has. *)
Theorem implicit_receiver_excluded (nodes : list Node) (position : Z) :
  (forall span, findNodeAtPosition nodes position <> Some (Expr (ImplicitReceiver span)))
  /\ (forall parent found,
        matchesAt position (Expr parent) = true ->
        (forall c, In c (astChildren parent) ->
                   isWithin position (astSpan c) = true ->
                   exists span, c = ImplicitReceiver span) ->
        visitAst position found parent = Some (Expr parent))
  /\ (forall parent,
        wellFormed nodes = true -> InTree nodes (Expr parent) ->
        matchesAt position (Expr parent) = true ->
        (forall c, In c (astChildren parent) ->
                   isWithin position (astSpan c) = true ->
                   exists span, c = ImplicitReceiver span) ->
        findNodeAtPosition nodes position = Some (Expr parent))
  /\ (forall receiver,
        findNodeAtPosition (titleInterpolation receiver) 3
        = Some (Expr (titleRead receiver))).
Proof.
  assert (Hchildren : forall parent,
            (forall c, In c (astChildren parent) ->
                       isWithin position (astSpan c) = true ->
                       exists span, c = ImplicitReceiver span) ->
            forall x, In x (childrenOf (Expr parent)) -> matchesAt position x = false).
  { intros parent Hc x (c & <- & Hin)%in_map_iff. unfold matchesAt.
    destruct (isWithin position (spanOf (Expr c))) eqn:Hw; [|by rewrite andb_false_r].
    by destruct (Hc c Hin Hw) as [span ->]. }
  split; [|split; [|split]].
  - intros span Hf.
    pose proof (findNodeAtPosition_candidate nodes position) as H.
    rewrite Hf in H. by destruct H as [_ H].
  - intros parent found Mp Hc.
    rewrite visitAst_unfold, Mp. apply visit_siblings_none. by apply Hchildren.
  - intros parent Hwf Hin Mp Hc.
    apply findNodeAtPosition_innermost; [done|done|done|by apply Hchildren].
  - intros receiver. unfold titleInterpolation, titleRead, findNodeAtPosition, visitAll.
    reflexivity.
Qed.

(** C3 for [title] with a receiver whose span holds offset 3. *)
Lemma implicit_receiver_excluded_witness :
  isWithin 3 (astSpan (ImplicitReceiver (mkSpan 3 4))) = true
  /\ visitAst 3 None (titleRead (mkSpan 3 4)) = Some (Expr (titleRead (mkSpan 3 4)))
  /\ findNodeAtPosition (titleInterpolation (mkSpan 3 4)) 3
     = Some (Expr (titleRead (mkSpan 3 4))).
Proof.
  assert (Hreceiver : forall c, In c (astChildren (titleRead (mkSpan 3 4))) ->
            isWithin 3 (astSpan c) = true -> exists span, c = ImplicitReceiver span).
  { intros c [<-|[]] _. by exists (mkSpan 3 4). }
  destruct (implicit_receiver_excluded (titleInterpolation (mkSpan 3 4)) 3)
    as (_ & Hdescent & Htree & _).
  split; [reflexivity|]. split.
  - apply Hdescent; [reflexivity|exact Hreceiver].
  - apply Htree; [reflexivity|in_tree|reflexivity|exact Hreceiver].
Defined.

(** ** Two-way bindings *)

Lemma matchesAt_Tmpl p (node : Node) :
  matchesAt p (Tmpl node) = isWithin p (nodeSpan node).
Proof. done. Qed.

Lemma siblings_outside p (nodes : list Node) :
  (forall node, In node nodes -> isWithin p (nodeSpan node) = false) ->
  forall x, In x (map Tmpl nodes) -> matchesAt p x = false.
Proof. intros H x (node & <- & Hnode)%in_map_iff. by apply H. Qed.

Lemma find_first_sibling p (node : Node) (rest : list Node) :
  isWithin p (nodeSpan node) = true ->
  List.find (matchesAt p) (map Tmpl (node :: rest)) = Some (Tmpl node).
Proof. intros H. simpl. by rewrite matchesAt_Tmpl, H. Qed.

(** The roots before the first one that holds the position, and those after
    it, do not matter. *)
Lemma findNodeAtPosition_first_root p (before after : list Node) (root : Node) :
  (forall node, In node before -> isWithin p (nodeSpan node) = false) ->
  isWithin p (nodeSpan root) = true ->
  findNodeAtPosition (before ++ root :: after) p
  = firstDescendant (visitLocated p) (childrenOf (Tmpl root)) (Some (Tmpl root)).
Proof.
  intros Hbefore Hroot.
  rewrite findNodeAtPosition_fold, map_app, firstDescendant_app.
  rewrite (visit_siblings_none p (map Tmpl before)) by (by apply siblings_outside).
  apply visit_siblings_first. by apply find_first_sibling.
Qed.

(** C4: two-way binding.  A two-way binding [[(name)]="valueName"] of an
    element stands for a [BoundAttribute] [name] among the bound attributes of
    the element and a [BoundEvent] [nameChange] among its bound events, both
    over the text of the binding.  When the element is the first root whose
    span holds the position and no attribute or bound attribute before the
    binding holds it, a position in the binding and outside its value (in
    particular inside the attribute name) resolves to the template-side
    [BoundAttribute] and not to the [BoundEvent], and a position inside the
    value resolves to the expression-side [PropertyRead] of the value and not
    to a node of the handler. *)
Theorem two_way_binding (before after : list Node)
    (elementSpan sourceSpan valueSpan receiverSpan : Span)
    (tag name valueName : string)
    (attributes inputsBefore inputsAfter outputsBefore outputsAfter
       references children : list Node)
    (handler : AST) (position : Z) :
  let value := PropertyRead valueSpan (ImplicitReceiver receiverSpan) valueName in
  let attribute := BoundAttribute sourceSpan name value in
  let event := BoundEvent sourceSpan (name +:+ "Change") handler in
  let element :=
    Element elementSpan tag attributes (inputsBefore ++ attribute :: inputsAfter)
      (outputsBefore ++ event :: outputsAfter) references children in
  (forall root, In root before -> isWithin position (nodeSpan root) = false) ->
  isWithin position elementSpan = true ->
  (forall node, In node (attributes ++ inputsBefore) ->
                isWithin position (nodeSpan node) = false) ->
  isWithin position sourceSpan = true ->
  (isWithin position valueSpan = false ->
   findNodeAtPosition (before ++ element :: after) position = Some (Tmpl attribute)
   /\ isTemplateNode (Tmpl attribute) = true)
  /\ (isWithin position valueSpan = true ->
      findNodeAtPosition (before ++ element :: after) position = Some (Expr value)
      /\ isExpressionNode (Expr value) = true).
Proof.
  intros value attribute event element Hbefore Helement Hearlier Hsource.
  assert (Hfind : findNodeAtPosition (before ++ element :: after) position
                  = orElse (visitAst position None value) (Some (Tmpl attribute))).
  { rewrite (findNodeAtPosition_first_root position before after element Hbefore Helement).
    subst element. cbn [childrenOf].
    replace (attributes ++ (inputsBefore ++ attribute :: inputsAfter)
             ++ (outputsBefore ++ event :: outputsAfter) ++ references ++ children)%list
      with ((attributes ++ inputsBefore)
            ++ attribute :: inputsAfter
            ++ (outputsBefore ++ event :: outputsAfter) ++ references ++ children)%list
      by (by rewrite <- !app_assoc).
    rewrite map_app, firstDescendant_app.
    rewrite (visit_siblings_none position (map Tmpl (attributes ++ inputsBefore)))
      by (by apply siblings_outside).
    rewrite (visit_siblings_first position _ _ (Tmpl attribute))
      by (apply find_first_sibling; exact Hsource).
    done. }
  rewrite Hfind. subst value attribute. cbn [visitAst astSpan].
  split; intros Hvalue; rewrite Hvalue; done.
Qed.

(** C4 on [<cmp [(foo)]="bar"></cmp>] at offsets 8 (in [foo]) and 15 (in
    [bar]); the element holds the bound attribute [foo] and the bound event
    [fooChange]. *)
Lemma two_way_binding_witness :
  (findNodeAtPosition twoWayBinding 8 = Some (Tmpl fooAttribute)
   /\ isTemplateNode (Tmpl fooAttribute) = true)
  /\ (findNodeAtPosition twoWayBinding 15 = Some (Expr barRead)
      /\ isExpressionNode (Expr barRead) = true).
Proof.
  split.
  - apply (two_way_binding [] [] (mkSpan 0 25) (mkSpan 5 18) (mkSpan 14 17) (mkSpan 14 14)
             "cmp" "foo" "bar" [] [] [] [] [] [] []
             (PropertyWrite (mkSpan 14 17) (ImplicitReceiver (mkSpan 14 14)) "bar"
                (PropertyRead (mkSpan 14 17) (ImplicitReceiver (mkSpan 14 14)) "$event"))
             8); try reflexivity; by intros node [].
  - apply (two_way_binding [] [] (mkSpan 0 25) (mkSpan 5 18) (mkSpan 14 17) (mkSpan 14 14)
             "cmp" "foo" "bar" [] [] [] [] [] [] []
             (PropertyWrite (mkSpan 14 17) (ImplicitReceiver (mkSpan 14 14)) "bar"
                (PropertyRead (mkSpan 14 17) (ImplicitReceiver (mkSpan 14 14)) "$event"))
             15); try reflexivity; by intros node [].
Defined.

(** ** Variables and absent results *)




End HybridVisitorFacts.

(** * Further properties of the serializer *)

Module Xliff2OutputFacts.

Import Xliff2 Xliff2Output Xliff2Facts.

(** ** Message ids *)

Lemma string_of_uint_digits (d : Decimal.uint) :
  hasNonDigit (NilEmpty.string_of_uint d) = false.
Proof. unfold hasNonDigit. induction d; simpl; done. Qed.

Lemma string_of_uint_length (d : Decimal.uint) :
  String.length (NilEmpty.string_of_uint d) = Decimal.nb_digits d.
Proof. induction d; simpl; by rewrite ?IHd. Qed.

Lemma string_of_uint_nonnil (d : Decimal.uint) :
  d <> Decimal.Nil -> NilZero.string_of_uint d = NilEmpty.string_of_uint d.
Proof. by destruct d. Qed.

Lemma usize_nb_digits (d : Decimal.uint) :
  DecimalPos.Unsigned.usize d = N.of_nat (Decimal.nb_digits d).
Proof. induction d; simpl; rewrite ?IHd; lia. Qed.

(** A number of [k] digits is below [10 ^ k] ... *)
Lemma of_lu_upper (d : Decimal.uint) :
  (DecimalPos.Unsigned.of_lu d < 10 ^ DecimalPos.Unsigned.usize d)%N.
Proof.
  induction d; simpl DecimalPos.Unsigned.usize; rewrite ?N.pow_succ_r';
    simpl DecimalPos.Unsigned.of_lu; simpl; lia.
Qed.

(** ... and, without leading zero, at least [10 ^ (k - 1)].  The digits are
    taken least significant first. *)
Lemma of_lu_lower (d : Decimal.uint) :
  DecimalFacts.nztail d = d -> d <> Decimal.Nil ->
  (10 ^ (DecimalPos.Unsigned.usize d - 1) <= DecimalPos.Unsigned.of_lu d)%N.
Proof.
  assert (Hstep : forall d' k,
    (d' <> Decimal.Nil ->
     10 ^ (DecimalPos.Unsigned.usize d' - 1) <= DecimalPos.Unsigned.of_lu d')%N ->
    (d' = Decimal.Nil -> 1 <= k)%N ->
    (10 ^ (N.succ (DecimalPos.Unsigned.usize d') - 1)
       <= k + 10 * DecimalPos.Unsigned.of_lu d')%N).
  { intros d' k IH Hk. replace (N.succ (DecimalPos.Unsigned.usize d') - 1)%N
      with (DecimalPos.Unsigned.usize d') by lia.
    destruct (Decimal.uint_eq_dec d' Decimal.Nil) as [->|Hne].
    - simpl. specialize (Hk eq_refl). lia.
    - specialize (IH Hne).
      assert (Hpos : (1 <= DecimalPos.Unsigned.usize d')%N).
      { destruct d'; simpl; try done; lia. }
      replace (DecimalPos.Unsigned.usize d')
        with (N.succ (DecimalPos.Unsigned.usize d' - 1)) at 1 by lia.
      rewrite N.pow_succ_r'. lia. }
  induction d as [|d IH|d IH|d IH|d IH|d IH|d IH|d IH|d IH|d IH|d IH];
    intros Hn Hne; [done|..];
    simpl DecimalPos.Unsigned.usize; simpl DecimalPos.Unsigned.of_lu;
    simpl in Hn.
  - destruct (DecimalFacts.nztail d) eqn:E; try done;
      injection Hn as Hn; rewrite <- (N.add_0_l (10 * _));
      (apply Hstep; [intros Hd; apply IH; [by rewrite ?E|done]
                    |intros ->; discriminate Hn]).
  - injection Hn as Hn. apply Hstep; [auto|lia].
  - injection Hn as Hn. apply Hstep; [auto|lia].
  - injection Hn as Hn. apply Hstep; [auto|lia].
  - injection Hn as Hn. apply Hstep; [auto|lia].
  - injection Hn as Hn. apply Hstep; [auto|lia].
  - injection Hn as Hn. apply Hstep; [auto|lia].
  - injection Hn as Hn. apply Hstep; [auto|lia].
  - injection Hn as Hn. apply Hstep; [auto|lia].
  - injection Hn as Hn. apply Hstep; [auto|lia].
Qed.

(** The rendering of [n] is the digits of [n] without leading zero. *)
Lemma showN_little_endian (n : N) :
  exists d : Decimal.uint,
    Js.showN n = NilEmpty.string_of_uint (Decimal.rev d)
    /\ DecimalPos.Unsigned.of_lu d = n
    /\ DecimalFacts.lnorm d = d.
Proof.
  exists (DecimalPos.Unsigned.to_lu n).
  assert (H1 : N.to_uint n = Decimal.rev (DecimalPos.Unsigned.to_lu n)).
  { by destruct n. }
  assert (H2 : DecimalPos.Unsigned.of_lu (DecimalPos.Unsigned.to_lu n) = n).
  { pose proof (DecimalN.Unsigned.of_to n) as H. rewrite H1 in H.
    unfold N.of_uint in H. by rewrite DecimalPos.Unsigned.of_lu_rev in H. }
  split; [|split; [done|]].
  - unfold Js.showN. rewrite string_of_uint_nonnil, H1; [done|].
    destruct n; [done|apply DecimalPos.Unsigned.to_uint_nonnil].
  - pose proof (DecimalPos.Unsigned.to_of_lu (DecimalPos.Unsigned.to_lu n)) as H.
    by rewrite H2 in H.
Qed.

(** X1: the test that [getMessageId] hands to [legacyIds.find] accepts the
    decimal rendering of a natural number exactly when the number is below
    [10 ^ 20]; so the limit of 20 characters lets every 64-bit id through. *)
Theorem isLegacyXliff2Id_showN (n : N) :
  isLegacyXliff2Id (Js.showN n) = true <-> (n < 10 ^ 20)%N.
Proof.
  destruct (showN_little_endian n) as (d & -> & Hn & Hnorm).
  unfold isLegacyXliff2Id, MAX_LEGACY_XLIFF_2_MESSAGE_LENGTH.
  rewrite string_of_uint_digits, andb_true_r, string_of_uint_length,
    DecimalFacts.nb_digits_rev, Z.leb_le.
  pose proof (usize_nb_digits d) as Hsize.
  pose proof (of_lu_upper d) as Hupper. rewrite Hn in Hupper.
  split.
  - intros Hlen. eapply N.lt_le_trans; [exact Hupper|].
    apply N.pow_le_mono_r; lia.
  - intros Hlt. unfold DecimalFacts.lnorm in Hnorm.
    destruct (Decimal.uint_eq_dec (DecimalFacts.nztail d) Decimal.Nil) as [E|E].
    + rewrite E in Hnorm. subst d. simpl. lia.
    + assert (Hd : DecimalFacts.nztail d = d) by (by destruct (DecimalFacts.nztail d)).
      assert (Hne : d <> Decimal.Nil) by (intros ->; by apply E).
      pose proof (of_lu_lower d Hd Hne) as Hlower. rewrite Hn in Hlower.
      assert (Hpow : (10 ^ (DecimalPos.Unsigned.usize d - 1) < 10 ^ 20)%N) by lia.
      apply N.pow_lt_mono_r_iff in Hpow; lia.
Qed.

(** X2: [getMessageId] returns the empty string only for a message whose
    canonical [id] is empty: an empty custom id or legacy id never replaces a
    non-empty canonical id. *)
Theorem getMessageId_empty (useLegacyIds : bool) (message : ParsedMessage) :
  getMessageId useLegacyIds message = "" -> id message = "".
Proof.
  assert (Hlegacy : forall o : option string,
            match Js.or (Js.ofOption o) (fun _ => Js.Str (id message)) with
            | Js.Str s => s
            | _ => id message
            end = "" -> id message = "").
  { intros [x|]; unfold Js.or; simpl; [|done].
    destruct (String.eqb x "") eqn:Ex; simpl; [done|].
    intros ->. done. }
  unfold getMessageId, getMessageIdValue, Js.or at 1 2, Js.and.
  destruct (customId message) as [c|]; simpl.
  - destruct (String.eqb c "") eqn:Ec; simpl; rewrite ?Ec; simpl.
    + destruct useLegacyIds; simpl; [|done].
      destruct (legacyIds message) as [ids|]; simpl; [|done].
      apply (Hlegacy (Js.find isLegacyXliff2Id ids)).
    + intros ->. done.
  - destruct useLegacyIds; simpl; [|done].
    destruct (legacyIds message) as [ids|]; simpl; [|done].
    apply (Hlegacy (Js.find isLegacyXliff2Id ids)).
Qed.

(** X2 on a message whose ids are all empty. *)
Lemma getMessageId_empty_witness :
  getMessageId true anonymousMessage = "" /\ id anonymousMessage = "".
Proof.
  split; [reflexivity|].
  apply (getMessageId_empty true anonymousMessage). reflexivity.
Defined.

(** ** What [serializeMessage] reads *)

(** A loop only runs its body on the indices from [i] up to [bound]. *)
Lemma forLoop_ext (body1 body2 : Z -> M unit) (bound stride : Z) :
  0 <= stride ->
  forall fuel i s,
    (forall j t, i <= j < bound -> body1 j t = body2 j t) ->
    forLoop fuel i bound stride body1 s = forLoop fuel i bound stride body2 s.
Proof.
  intros Hstride. induction fuel as [|fuel IH]; intros i s H; simpl;
    destruct (Z.ltb_spec i bound) as [Hlt|Hge]; try done.
  unfold mbind, M_bind. rewrite H by lia.
  destruct (body2 i s) as [[[] s']|]; [|done].
  apply IH. intros j t Hj. apply H. lia.
Qed.

Lemma index_take {A : Type} (l1 l2 : list A) (k : nat) (j : Z) :
  take k l1 = take k l2 -> j < Z.of_nat k -> Js.index l1 j = Js.index l2 j.
Proof.
  intros H Hj. unfold Js.index. destruct (Z.ltb_spec j 0); [done|].
  rewrite <- (lookup_take_lt l1 k), <- (lookup_take_lt l2 k), H by lia. done.
Qed.

Section Reads.

Variable extractIcuPlaceholders : string -> list string.

(** The loop of [serializeMessage] reads the placeholder names below
    [messageParts.length - 1] only. *)
Lemma namesLoop_ext (parts names1 names2 : list string) sl fuel s :
  take (length parts - 1) names1 = take (length parts - 1) names2 ->
  forLoop fuel 0 (Z.of_nat (length parts) - 1) 1 (fun i =>
    part ← defined (Js.index parts i);
    serializeTextPart extractIcuPlaceholders part;;
    placeholderName ← defined (Js.index names1 i);
    serializePlaceholder placeholderName sl) s =
  forLoop fuel 0 (Z.of_nat (length parts) - 1) 1 (fun i =>
    part ← defined (Js.index parts i);
    serializeTextPart extractIcuPlaceholders part;;
    placeholderName ← defined (Js.index names2 i);
    serializePlaceholder placeholderName sl) s.
Proof.
  intros Hnames. apply forLoop_ext; [lia|].
  intros j t Hj.
  rewrite (index_take names1 names2 (length parts - 1) j); [done|done|lia].
Qed.

(** X3: [serializeMessage] reads nothing of a message but [messageParts],
    [substitutionLocations] and the first [messageParts.length - 1] placeholder
    names: two messages that agree on these are serialized alike, whatever
    their other properties, and placeholder names in excess are ignored. *)
Theorem serializeMessage_reads (message1 message2 : ParsedMessage) (s : State) :
  messageParts message1 = messageParts message2 ->
  substitutionLocations message1 = substitutionLocations message2 ->
  take (length (messageParts message1) - 1) (placeholderNames message1) =
  take (length (messageParts message1) - 1) (placeholderNames message2) ->
  serializeMessage extractIcuPlaceholders message1 s =
  serializeMessage extractIcuPlaceholders message2 s.
Proof.
  intros Hparts Hsl Hnames.
  unfold serializeMessage. rewrite <- Hparts, <- Hsl.
  unfold mbind at 1 3, M_bind at 1 3. simpl.
  unfold mbind at 1 5, M_bind at 1 5.
  by rewrite (namesLoop_ext _ _ _ _ _ _ Hnames).
Qed.

(** An iteration fails when there is no placeholder name at its index. *)
Lemma body_fails (parts names : list string) sl (i : Z) (s : State) :
  Js.index names i = None ->
  (part ← defined (Js.index parts i);
   serializeTextPart extractIcuPlaceholders part;;
   placeholderName ← defined (Js.index names i);
   serializePlaceholder placeholderName sl) s = None.
Proof.
  intros H. unfold mbind, M_bind.
  destruct (defined (Js.index parts i) s) as [[part s1]|]; [|done].
  destruct (serializeTextPart extractIcuPlaceholders part s1) as [[[] s2]|]; [|done].
  by rewrite H.
Qed.

Lemma forLoop_fails (parts names : list string) sl (bound : Z) :
  Z.of_nat (length names) < bound ->
  forall fuel i s,
    0 <= i <= Z.of_nat (length names) ->
    forLoop fuel i bound 1 (fun i =>
      part ← defined (Js.index parts i);
      serializeTextPart extractIcuPlaceholders part;;
      placeholderName ← defined (Js.index names i);
      serializePlaceholder placeholderName sl) s = None.
Proof.
  intros Hbound. induction fuel as [|fuel IH]; intros i s Hi; simpl;
    destruct (Z.ltb_spec i bound) as [Hlt|Hge]; try lia; [done|].
  unfold mbind at 1, M_bind at 1.
  destruct (Z.eq_dec i (Z.of_nat (length names))) as [->|Hne].
  - rewrite body_fails; [done|].
    rewrite index_lookup by lia. apply lookup_ge_None. lia.
  - match goal with |- match ?b with _ => _ end = _ => destruct b as [[[] s']|] end;
      [|done].
    apply IH. lia.
Qed.

(** X4: [serializeMessage] raises a [TypeError] for a message that has fewer
    placeholder names than gaps between its message parts: the loop reaches an
    index at which [placeholderNames[i]] is [undefined]. *)
Theorem serializeMessage_too_few_names (message : ParsedMessage) (s : State) :
  (S (length (placeholderNames message)) < length (messageParts message))%nat ->
  serializeMessage extractIcuPlaceholders message s = None.
Proof.
  intros H. unfold serializeMessage.
  unfold mbind at 1, M_bind at 1. simpl.
  unfold mbind at 1, M_bind at 1.
  rewrite forLoop_fails; [done|lia|lia].
Qed.

End Reads.

(** X3 on [boldMessage] and a message with the same parts, one more
    placeholder name, another id and a meaning. *)
Lemma serializeMessage_reads_witness :
  serializeMessage (fun text => [text]) boldMessage (mkState 7 []) =
  serializeMessage (fun text => [text]) boldMessageWithSurplusNames (mkState 7 []).
Proof.
  apply (serializeMessage_reads (fun text => [text]) boldMessage
           boldMessageWithSurplusNames (mkState 7 [])); reflexivity.
Defined.

(** X4 on a message with two parts and no placeholder name. *)
Lemma serializeMessage_too_few_names_witness :
  serializeMessage (fun text => [text]) messageWithoutNames (mkState 0 []) = None.
Proof.
  apply (serializeMessage_too_few_names (fun text => [text]) messageWithoutNames
           (mkState 0 [])).
  simpl. lia.
Defined.

Section Returns.

Variable extractIcuPlaceholders : string -> list string.

Hypothesis pieces_nonempty : forall text, extractIcuPlaceholders text <> [].

(** Placeholder names in excess are not written. *)
Lemma partsPlaceholders_take (parts : list string) : forall names,
  partsPlaceholders extractIcuPlaceholders parts (take (length parts - 1) names)
  = partsPlaceholders extractIcuPlaceholders parts names.
Proof.
  induction parts as [|a parts IH]; intros names; [done|].
  destruct parts as [|b parts]; [by destruct names|].
  destruct names as [|name names]; [done|].
  specialize (IH names). simpl in IH. rewrite Nat.sub_0_r in IH.
  simpl. by rewrite IH.
Qed.

(** X16: [serializeMessage] returns normally for every message that has at
    least one message part and at least [messageParts.length - 1] placeholder
    names, more names than that included, and in which every [CLOSE_*]
    placeholder written comes after a [START_*] placeholder that is still
    unclosed: the [XmlFile] takes its calls, each [endTag('pc')] closing a
    [<pc>] of the message, and what it writes is text parts and placeholder
    tags strictly alternating, starting and ending with a text. *)
Theorem serializeMessage_returns (message : ParsedMessage) (n : N) (depth : nat) :
  messageParts message <> [] ->
  (length (messageParts message) <= S (length (placeholderNames message)))%nat ->
  unclosedStarts 0 (writtenPlaceholders extractIcuPlaceholders message) = Some depth ->
  exists calls n',
    Emits (serializeMessage extractIcuPlaceholders message) n tt n' calls
    /\ (forall open, openElements open calls = Some (replicate depth "pc" ++ open)%list)
    /\ alternates calls = true.
Proof.
  intros Hparts Hlen Hclose.
  set (message' :=
         mkParsedMessage (id message) (customId message) (legacyIds message)
           (meaning message) (description message) (location message)
           (messageParts message)
           (take (length (messageParts message) - 1) (placeholderNames message))
           (substitutionLocations message)).
  assert (Hwf : wellFormed message').
  { unfold wellFormed. simpl. rewrite length_take.
    destruct (messageParts message); [done|]. simpl in *. lia. }
  assert (Hwritten : writtenPlaceholders extractIcuPlaceholders message'
                     = writtenPlaceholders extractIcuPlaceholders message).
  { unfold writtenPlaceholders, message'.
    cbn [messageParts placeholderNames]. by rewrite partsPlaceholders_take. }
  exists (fst (messageCalls extractIcuPlaceholders message')),
         (snd (messageCalls extractIcuPlaceholders message')).
  split; [|split; [|apply messageCalls_alternates]]; cycle 1.
  { intros open. apply messageCalls_accepted. by rewrite Hwritten. }
  intros xs.
  rewrite <- (emits_serializeMessage extractIcuPlaceholders pieces_nonempty message' n
                Hwf xs).
  unfold serializeMessage, message'. cbn [messageParts placeholderNames substitutionLocations].
  unfold mbind at 1 3, M_bind at 1 3. simpl.
  unfold mbind at 1 5, M_bind at 1 5.
  rewrite (namesLoop_ext extractIcuPlaceholders (messageParts message)
             (placeholderNames message)
             (take (length (messageParts message) - 1) (placeholderNames message)));
    [done|].
  by rewrite take_take, Nat.min_id.
Qed.

End Returns.

(** X16 on a message with one placeholder name more than its parts can use. *)
Lemma serializeMessage_returns_witness :
  exists calls n',
    Emits (serializeMessage (fun text => [text]) boldMessageWithSurplusNames) 7 tt n' calls
    /\ (forall open, openElements open calls = Some open)
    /\ alternates calls = true.
Proof.
  apply (serializeMessage_returns (fun text => [text]) ltac:(done)
           boldMessageWithSurplusNames 7 0).
  - done.
  - simpl. lia.
  - reflexivity.
Defined.

(** ** Methods only append to the record of the calls *)

Lemma appendOnly_emits {A : Type} (c : M A) n a n' calls :
  Emits c n a n' calls -> forall xs,
  c (mkState n xs) =
  match c (mkState n []) with
  | Some (a, s') => Some (a, mkState (currentPlaceholderId s') (xs ++ xml s')%list)
  | None => None
  end.
Proof. intros H xs. by rewrite (H xs), (H []). Qed.

Lemma appendOnly_ret {A : Type} (a : A) : AppendOnly (mret a).
Proof. intros n xs. apply (appendOnly_emits _ _ _ _ _ (emits_ret a n)). Qed.

Lemma appendOnly_call (c : XmlFile.call) : AppendOnly (call c).
Proof. intros n xs. apply (appendOnly_emits _ _ _ _ _ (emits_call c n)). Qed.

Lemma appendOnly_throw {A : Type} : AppendOnly (@throw A).
Proof. by intros n xs. Qed.

Lemma appendOnly_defined {A : Type} (o : option A) : AppendOnly (defined o).
Proof. destruct o; [apply appendOnly_ret|apply appendOnly_throw]. Qed.

Lemma appendOnly_bind {A B : Type} (c : M A) (f : A -> M B) :
  AppendOnly c -> (forall a, AppendOnly (f a)) -> AppendOnly (c ≫= f).
Proof.
  intros Hc Hf n xs. unfold mbind, M_bind. rewrite (Hc n xs).
  destruct (c (mkState n [])) as [[a [n1 xs1]]|]; [|done].
  simpl. rewrite (Hf a n1 (xs ++ xs1)%list), (Hf a n1 xs1).
  destruct (f a (mkState n1 [])) as [[b [n2 xs2]]|]; [|done].
  simpl. by rewrite app_assoc.
Qed.

Lemma appendOnly_forLoop (body : Z -> M unit) (bound stride : Z) :
  (forall i, AppendOnly (body i)) ->
  forall fuel i, AppendOnly (forLoop fuel i bound stride body).
Proof.
  intros Hbody. induction fuel as [|fuel IH]; intros i; simpl;
    destruct (i <? bound); try apply appendOnly_ret; [apply appendOnly_throw|].
  apply appendOnly_bind; [apply Hbody|intros _; apply IH].
Qed.

Lemma appendOnly_serializePlaceholder name sl : AppendOnly (serializePlaceholder name sl).
Proof.
  intros n xs. apply (appendOnly_emits _ _ _ _ _ (emits_serializePlaceholder n name sl)).
Qed.

(** What a method does after one that returns normally. *)
Lemma bind_emits {A B : Type} (c : M A) (f : A -> M B) n a n' calls xs :
  Emits c n a n' calls ->
  (c ≫= f) (mkState n xs) = f a (mkState n' (xs ++ calls)%list).
Proof. intros H. unfold mbind, M_bind. by rewrite (H xs). Qed.

Section Appends.

Variable extractIcuPlaceholders : string -> list string.

Lemma appendOnly_serializeTextPart text :
  AppendOnly (serializeTextPart extractIcuPlaceholders text).
Proof.
  unfold serializeTextPart.
  apply appendOnly_bind; [|intros _].
  - apply appendOnly_forLoop. intros i.
    apply appendOnly_bind; [apply appendOnly_defined|intros piece].
    apply appendOnly_bind; [apply appendOnly_call|intros _].
    apply appendOnly_bind; [apply appendOnly_defined|intros placeholder].
    apply appendOnly_serializePlaceholder.
  - apply appendOnly_bind; [apply appendOnly_defined|intros piece].
    apply appendOnly_call.
Qed.

Lemma appendOnly_serializeMessage message :
  AppendOnly (serializeMessage extractIcuPlaceholders message).
Proof.
  unfold serializeMessage.
  apply appendOnly_bind; [|intros _].
  { intros n xs. apply (appendOnly_emits _ _ _ _ _ (emits_setCurrentPlaceholderId n 0)). }
  apply appendOnly_bind; [|intros _].
  - apply appendOnly_forLoop. intros i.
    apply appendOnly_bind; [apply appendOnly_defined|intros part].
    apply appendOnly_bind; [apply appendOnly_serializeTextPart|intros _].
    apply appendOnly_bind; [apply appendOnly_defined|intros placeholderName].
    apply appendOnly_serializePlaceholder.
  - apply appendOnly_bind; [apply appendOnly_defined|intros part].
    apply appendOnly_serializeTextPart.
Qed.

(** On the record of the calls, [serializeMessage] fails wherever it is
    started if it fails started on an empty record. *)
Lemma serializeMessage_fails message s :
  serializeMessage extractIcuPlaceholders message s = None <->
  serializeMessage extractIcuPlaceholders message (mkState 0 []) = None.
Proof.
  destruct s as [n xs]. rewrite (appendOnly_serializeMessage message n xs).
  change (serializeMessage extractIcuPlaceholders message (mkState n []))
    with (serializeMessage extractIcuPlaceholders message (mkState 0 [])).
  by destruct (serializeMessage _ _ _) as [[[] s']|].
Qed.

End Appends.

(** ** Placeholder ids *)

Lemma showN_inj (a b : N) : Js.showN a = Js.showN b -> a = b.
Proof.
  unfold Js.showN. intros H.
  apply (f_equal NilZero.uint_of_string) in H.
  assert (Hnil : forall n, N.to_uint n <> Decimal.Nil).
  { intros [|p]; [done|]. apply DecimalPos.Unsigned.to_uint_nonnil. }
  rewrite !NilZero.usu in H by apply Hnil.
  injection H as H. by apply DecimalN.Unsigned.to_uint_inj.
Qed.

Lemma idsFrom_S (n : N) (count : nat) :
  idsFrom n (S count) = Js.showN n :: idsFrom (n + 1) count.
Proof.
  unfold idsFrom. simpl. rewrite N.add_0_r. f_equal.
  rewrite <- seq_shift, map_map. apply map_ext. intros i. f_equal. lia.
Qed.

Lemma idsFrom_app (count1 count2 : nat) : forall n,
  idsFrom n (count1 + count2) =
  (idsFrom n count1 ++ idsFrom (n + N.of_nat count1) count2)%list.
Proof.
  induction count1 as [|count1 IH]; intros n.
  - simpl. by rewrite N.add_0_r.
  - change (S count1 + count2)%nat with (S (count1 + count2)).
    rewrite !idsFrom_S, IH. simpl. do 3 f_equal. lia.
Qed.

Lemma idsFrom_NoDup (n : N) (count : nat) : List.NoDup (idsFrom n count).
Proof.
  unfold idsFrom. apply Finite.Injective_map_NoDup; [|apply List.seq_NoDup].
  intros i j H%showN_inj. lia.
Qed.

Lemma placeholderIds_app calls1 calls2 :
  placeholderIds (calls1 ++ calls2) = (placeholderIds calls1 ++ placeholderIds calls2)%list.
Proof. unfold placeholderIds. apply omap_app. Qed.

Lemma numbered_nil (n : N) : Numbered ([], n) n [].
Proof. split; simpl; [done|lia]. Qed.

Lemma numbered_app calls1 n1 calls2 n2 n placeholders1 placeholders2 :
  Numbered (calls1, n1) n placeholders1 ->
  Numbered (calls2, n2) n1 placeholders2 ->
  Numbered ((calls1 ++ calls2)%list, n2) n (placeholders1 ++ placeholders2).
Proof.
  unfold Numbered. simpl. intros [H1 ->] [H2 ->].
  rewrite List.filter_app, length_app, placeholderIds_app, idsFrom_app, H1, H2.
  split; [done|lia].
Qed.

Lemma numbered_text str calls n' n placeholders :
  Numbered (calls, n') n placeholders ->
  Numbered (XmlFile.text str :: calls, n') n placeholders.
Proof. done. Qed.

Lemma numbered_placeholder n name sl :
  Numbered ([placeholderCall n name sl], placeholderNext n name) n [name].
Proof.
  unfold Numbered, placeholderCall, placeholderNext, consumesId. simpl.
  destruct (Js.startsWith name "START_").
  - unfold placeholderIds. simpl. rewrite !attribute_setIfDefined_ne by done.
    simpl. by rewrite idsFrom_S.
  - destruct (Js.startsWith name "CLOSE_"); simpl.
    + split; [done|lia].
    + unfold placeholderIds. simpl. rewrite !attribute_setIfDefined_ne by done.
      simpl. by rewrite idsFrom_S.
Qed.

Section Ids.

Variable extractIcuPlaceholders : string -> list string.

Lemma piecesCalls_numbered pieces : forall n,
  Numbered (piecesCalls n pieces) n (piecesPlaceholders pieces).
Proof.
  induction pieces as [pieces IH] using (induction_ltof1 _ (@length _)).
  unfold ltof in IH. intros n.
  destruct pieces as [|a [|b rest]]; try apply numbered_nil.
  rewrite piecesCalls_cons.
  specialize (IH rest ltac:(simpl; lia) (placeholderNext n b)).
  destruct (piecesCalls (placeholderNext n b) rest) as [calls n'].
  apply numbered_text.
  apply (numbered_app [_] _ _ _ _ [_] _ (numbered_placeholder n b None) IH).
Qed.

Lemma textPartCalls_numbered n text :
  Numbered (textPartCalls extractIcuPlaceholders n text) n
    (piecesPlaceholders (extractIcuPlaceholders text)).
Proof.
  unfold textPartCalls.
  pose proof (piecesCalls_numbered (extractIcuPlaceholders text) n) as H.
  destruct (piecesCalls n (extractIcuPlaceholders text)) as [calls n'].
  rewrite <- (app_nil_r (piecesPlaceholders _)).
  apply (numbered_app _ _ _ _ _ _ _ H). apply numbered_text, numbered_nil.
Qed.

Lemma partsCalls_numbered sl parts : forall names n,
  Numbered (partsCalls extractIcuPlaceholders n parts names sl) n
    (partsPlaceholders extractIcuPlaceholders parts names).
Proof.
  induction parts as [|a parts IH]; intros names n; [apply numbered_nil|].
  destruct parts as [|b parts]; [apply numbered_nil|].
  destruct names as [|name names]; [apply numbered_nil|].
  rewrite partsCalls_cons.
  pose proof (textPartCalls_numbered n a) as Ha.
  destruct (textPartCalls extractIcuPlaceholders n a) as [calls1 n1].
  specialize (IH names (placeholderNext n1 name)).
  destruct (partsCalls extractIcuPlaceholders (placeholderNext n1 name)
              (b :: parts) names sl) as [calls2 n2].
  change (partsPlaceholders extractIcuPlaceholders (a :: b :: parts) (name :: names))
    with (piecesPlaceholders (extractIcuPlaceholders a)
            ++ [name] ++ partsPlaceholders extractIcuPlaceholders (b :: parts) names)%list.
  apply (numbered_app _ _ _ _ _ _ _ Ha).
  apply (numbered_app [_] _ _ _ _ [_] _ (numbered_placeholder n1 name sl) IH).
Qed.

Lemma messageCalls_numbered message :
  Numbered (messageCalls extractIcuPlaceholders message) 0
    (writtenPlaceholders extractIcuPlaceholders message).
Proof.
  unfold messageCalls, writtenPlaceholders.
  pose proof (partsCalls_numbered (substitutionLocations message)
                (messageParts message) (placeholderNames message) 0) as H1.
  destruct (partsCalls extractIcuPlaceholders 0 (messageParts message)
              (placeholderNames message) (substitutionLocations message))
    as [calls1 n1].
  pose proof (textPartCalls_numbered n1 (List.last (messageParts message) "")) as H2.
  destruct (textPartCalls extractIcuPlaceholders n1 (List.last (messageParts message) ""))
    as [calls2 n2].
  apply (numbered_app _ _ _ _ _ _ _ H1 H2).
Qed.

Hypothesis pieces_nonempty : forall text, extractIcuPlaceholders text <> [].

(** X6: within one message in which every [CLOSE_*] placeholder comes after
    a [START_*] placeholder that is still unclosed, so that the [XmlFile] takes
    the calls, the [id] attributes of the [<pc>] and [<ph>] elements are the
    decimal numbers 0, 1, 2, ... in the order the elements are written,
    whatever the field held before; they are pairwise different; a [CLOSE_*]
    placeholder takes no id, every other placeholder (from [placeholderNames]
    or from an ICU expression) takes one; and [currentPlaceholderId] is left at
    the number of ids given out. *)
Theorem serializeMessage_placeholder_ids (message : ParsedMessage) (n : N)
    (depth : nat) :
  wellFormed message ->
  unclosedStarts 0 (writtenPlaceholders extractIcuPlaceholders message) = Some depth ->
  exists calls,
    Emits (serializeMessage extractIcuPlaceholders message) n tt
      (N.of_nat (length (List.filter consumesId
                           (writtenPlaceholders extractIcuPlaceholders message))))
      calls
    /\ (forall open, openElements open calls = Some (replicate depth "pc" ++ open)%list)
    /\ placeholderIds calls =
       idsFrom 0 (length (List.filter consumesId
                            (writtenPlaceholders extractIcuPlaceholders message)))
    /\ List.NoDup (placeholderIds calls).
Proof.
  intros Hwf Hclose.
  pose proof (emits_serializeMessage extractIcuPlaceholders pieces_nonempty message n Hwf)
    as He.
  destruct (messageCalls_numbered message) as [Hids Hn].
  rewrite Hn in He. exists (fst (messageCalls extractIcuPlaceholders message)).
  split; [exact He|].
  split; [intros open; by apply messageCalls_accepted|].
  split; [exact Hids|].
  rewrite Hids. apply idsFrom_NoDup.
Qed.

End Ids.

(** X6 on [boldMessage]: two ids for three placeholders. *)
Lemma serializeMessage_placeholder_ids_witness :
  exists calls,
    Emits (serializeMessage (fun text => [text]) boldMessage) 7 tt 2 calls
    /\ (forall open, openElements open calls = Some open)
    /\ placeholderIds calls = ["0"; "1"]
    /\ List.NoDup (placeholderIds calls).
Proof.
  apply (serializeMessage_placeholder_ids (fun text => [text]) ltac:(done) boldMessage 7 0).
  - reflexivity.
  - reflexivity.
Defined.

(** ** Text of a message *)

Lemma textsOf_app calls1 calls2 :
  textsOf (calls1 ++ calls2) = (textsOf calls1 ++ textsOf calls2)%list.
Proof. unfold textsOf. apply omap_app. Qed.

Lemma textsOf_placeholderCall n name sl : textsOf [placeholderCall n name sl] = [].
Proof.
  unfold placeholderCall.
  destruct (Js.startsWith name "START_"); [done|].
  by destruct (Js.startsWith name "CLOSE_").
Qed.

Section Texts.

Variable extractIcuPlaceholders : string -> list string.

(** [extractIcuPlaceholders] returns text pieces with one ICU placeholder name
    between any two of them. *)
Hypothesis pieces_odd : forall text, Nat.odd (length (extractIcuPlaceholders text)) = true.

Lemma pieces_odd_nonempty text : extractIcuPlaceholders text <> [].
Proof. intros E. pose proof (pieces_odd text) as H. by rewrite E in H. Qed.

Lemma piecesCalls_texts pieces : forall n,
  Nat.odd (length pieces) = true ->
  textsOf (fst (piecesCalls n pieces) ++ [XmlFile.text (List.last pieces "")]) =
  evens pieces.
Proof.
  induction pieces as [pieces IH] using (induction_ltof1 _ (@length _)).
  unfold ltof in IH. intros n Hodd.
  destruct pieces as [|a [|b rest]]; try done.
  rewrite piecesCalls_cons.
  assert (Hrest : Nat.odd (length rest) = true).
  { simpl in Hodd. by rewrite Nat.odd_succ, Nat.even_succ in Hodd. }
  specialize (IH rest ltac:(simpl; lia) (placeholderNext n b) Hrest).
  destruct (piecesCalls (placeholderNext n b) rest) as [calls n'].
  assert (Hlast : List.last (a :: b :: rest) "" = List.last rest "").
  { destruct rest; [done|done]. }
  rewrite Hlast. cbn [fst] in *.
  change ((XmlFile.text a :: placeholderCall n b None :: calls) ++ ?l)%list
    with ([XmlFile.text a] ++ [placeholderCall n b None] ++ (calls ++ l))%list.
  rewrite (textsOf_app [_]), (textsOf_app [_]), textsOf_placeholderCall, IH. done.
Qed.

Lemma textPartCalls_texts n text :
  textsOf (fst (textPartCalls extractIcuPlaceholders n text)) =
  evens (extractIcuPlaceholders text).
Proof.
  unfold textPartCalls.
  pose proof (piecesCalls_texts (extractIcuPlaceholders text) n (pieces_odd text)) as H.
  by destruct (piecesCalls n (extractIcuPlaceholders text)).
Qed.

Lemma partsCalls_texts sl parts : forall names n,
  length parts = S (length names) ->
  (textsOf (fst (partsCalls extractIcuPlaceholders n parts names sl))
     ++ evens (extractIcuPlaceholders (List.last parts "")))%list =
  flat_map (fun part => evens (extractIcuPlaceholders part)) parts.
Proof.
  induction parts as [|a parts IH]; intros names n Hlen; [done|].
  destruct parts as [|b parts].
  - simpl. by rewrite app_nil_r.
  - destruct names as [|name names]; [done|].
    rewrite partsCalls_cons.
    pose proof (textPartCalls_texts n a) as Ha.
    destruct (textPartCalls extractIcuPlaceholders n a) as [calls1 n1].
    specialize (IH names (placeholderNext n1 name) ltac:(simpl in *; lia)).
    destruct (partsCalls extractIcuPlaceholders (placeholderNext n1 name)
                (b :: parts) names sl) as [calls2 n2].
    cbn [fst] in *.
    change (placeholderCall n1 name sl :: calls2)
      with ([placeholderCall n1 name sl] ++ calls2)%list.
    rewrite !textsOf_app, textsOf_placeholderCall, Ha.
    change (List.last (a :: b :: parts) "") with (List.last (b :: parts) "").
    change (flat_map ?f (a :: ?l)) with (f a ++ flat_map f l)%list.
    rewrite <- IH. by rewrite <- !app_assoc.
Qed.

(** X7: for a message in which every [CLOSE_*] placeholder comes after a
    [START_*] placeholder that is still unclosed, so that the [XmlFile] takes
    the calls, [serializeMessage] writes every text piece of the message
    exactly once and in order: the arguments of its [xml.text] calls are,
    message part after message part, the pieces at even indices of what
    [extractIcuPlaceholders] returns for the part; no text is dropped, repeated
    or reordered, and an empty piece is written as an empty text. *)
Theorem serializeMessage_texts (message : ParsedMessage) (n : N) (depth : nat) :
  wellFormed message ->
  unclosedStarts 0 (writtenPlaceholders extractIcuPlaceholders message) = Some depth ->
  exists calls n',
    Emits (serializeMessage extractIcuPlaceholders message) n tt n' calls
    /\ (forall open, openElements open calls = Some (replicate depth "pc" ++ open)%list)
    /\ textsOf calls =
       flat_map (fun part => evens (extractIcuPlaceholders part)) (messageParts message).
Proof.
  intros Hwf Hclose.
  exists (fst (messageCalls extractIcuPlaceholders message)),
         (snd (messageCalls extractIcuPlaceholders message)).
  split; [by apply emits_serializeMessage; [apply pieces_odd_nonempty|]|].
  split; [intros open; by apply messageCalls_accepted|].
  unfold messageCalls.
  pose proof (partsCalls_texts (substitutionLocations message) (messageParts message)
                (placeholderNames message) 0 Hwf) as H1.
  destruct (partsCalls extractIcuPlaceholders 0 (messageParts message)
              (placeholderNames message) (substitutionLocations message))
    as [calls1 n1].
  pose proof (textPartCalls_texts n1 (List.last (messageParts message) "")) as H2.
  destruct (textPartCalls extractIcuPlaceholders n1 (List.last (messageParts message) ""))
    as [calls2 n2].
  cbn [fst] in *. by rewrite textsOf_app, H2.
Qed.

End Texts.

(** X7 on [boldMessage], with a splitter that finds no ICU placeholder: the
    texts written are the message parts. *)
Lemma serializeMessage_texts_witness :
  exists calls n',
    Emits (serializeMessage (fun text => [text]) boldMessage) 7 tt n' calls
    /\ (forall open, openElements open calls = Some open)
    /\ textsOf calls = ["Hello "; "world"; "! "; ""].
Proof.
  apply (serializeMessage_texts (fun text => [text]) ltac:(done) boldMessage 7 0).
  - reflexivity.
  - reflexivity.
Defined.

(** ** Notes *)

Lemma noteCategories_app calls1 calls2 :
  noteCategories (calls1 ++ calls2) =
  (noteCategories calls1 ++ noteCategories calls2)%list.
Proof. unfold noteCategories. apply omap_app. Qed.

Lemma noteCategories_alternates calls :
  alternates calls = true -> noteCategories calls = [].
Proof.
  induction calls as [calls IH] using (induction_ltof1 _ (@length _)).
  unfold ltof in IH.
  destruct calls as [|[| |t] [|tag calls]]; try done.
  simpl. intros [Ht Hc]%andb_prop.
  rewrite (IH calls) by (simpl; lia || done).
  destruct tag as [name attrs options| |]; try done.
  simpl in Ht. destruct (String.eqb_spec name "note") as [->|]; [done|done].
Qed.

(** ** Methods that do not read [currentPlaceholderId] *)

Lemma sameXml_refl {A : Type} (r : option (A * State)) : sameXml r r.
Proof. by destruct r as [[a s]|]. Qed.

Lemma blind_ret {A : Type} (a : A) : CounterBlind (mret a).
Proof. by intros s1 s2 H. Qed.

Lemma blind_call (c : XmlFile.call) : CounterBlind (call c).
Proof. intros s1 s2 H. unfold call. simpl. by rewrite H. Qed.

Lemma blind_bind {A B : Type} (c : M A) (f : A -> M B) :
  CounterBlind c -> (forall a, CounterBlind (f a)) -> CounterBlind (c ≫= f).
Proof.
  intros Hc Hf s1 s2 H. specialize (Hc s1 s2 H).
  unfold mbind, M_bind.
  destruct (c s1) as [[a1 t1]|], (c s2) as [[a2 t2]|]; try done.
  destruct Hc as [<- Ht]. by apply Hf.
Qed.

Lemma blind_if {A : Type} (b : bool) (c1 c2 : M A) :
  CounterBlind c1 -> CounterBlind c2 -> CounterBlind (if b then c1 else c2).
Proof. by destruct b. Qed.

Lemma blind_serializeNote name value : CounterBlind (serializeNote name value).
Proof.
  unfold serializeNote.
  repeat (apply blind_bind; [|intros _]); apply blind_call.
Qed.

(** ** Sets of ids *)

Lemma union_seen (id : string) (seen ids : gset string) :
  id ∈ ids -> seen ∪ ids = {[id]} ∪ seen ∪ ids.
Proof.
  intros Hin. apply set_eq. intros x. rewrite !elem_of_union, elem_of_singleton.
  split; [tauto|]. intros [[->|?]|?]; auto.
Qed.

Lemma union_new (id : string) (seen ids : gset string) :
  seen ∪ ({[id]} ∪ ids) = {[id]} ∪ seen ∪ ids.
Proof.
  apply set_eq. intros x. rewrite !elem_of_union, elem_of_singleton. tauto.
Qed.

(** ** The whole file *)

Section File.

Variable sourceLocale : string.
Variable basePath : string.
Variable useLegacyIds : bool.
Variable relative : string -> string -> string.
Variable extractIcuPlaceholders : string -> list string.
Variable toString : list XmlFile.call -> string.

Local Abbreviation serializeUnit := (serializeUnit basePath relative extractIcuPlaceholders).
Local Abbreviation serializeMessages :=
  (serializeMessages basePath useLegacyIds relative extractIcuPlaceholders).
Local Abbreviation serializeCalls :=
  (serializeCalls sourceLocale basePath useLegacyIds relative extractIcuPlaceholders).

(** The [<notes>] block of a unit never fails. *)
Lemma emits_notes message n :
  Emits
    (if Js.truthy (Js.or (Js.ofOption (meaning message))
                     (fun _ => Js.ofOption (description message)))
     then
       call (XmlFile.startTag "notes" [] XmlFile.noOptions);;
       match location message with
       | Some loc => serializeNote "location" (locationNote basePath relative loc)
       | None => mret tt
       end;;
       (if Js.truthy (Js.ofOption (description message))
        then serializeNote "description" (default "" (description message))
        else mret tt);;
       (if Js.truthy (Js.ofOption (meaning message))
        then serializeNote "meaning" (default "" (meaning message))
        else mret tt);;
       call (XmlFile.endTag "notes" XmlFile.noOptions)
     else mret tt)
    n tt n (notesCalls basePath relative message).
Proof.
  unfold notesCalls.
  apply emits_if with (calls2 := []); intros _; [|apply emits_ret].
  eapply (emits_bind _ _ _ _ _ [_]); [apply emits_call|].
  eapply emits_bind.
  { apply (emits_option (location message) _ _ _ _ _
             (fun loc => noteCalls "location" (locationNote basePath relative loc)) []);
      [intros loc; apply emits_serializeNote|apply emits_ret]. }
  eapply emits_bind.
  { apply emits_if with (calls2 := []); intros _;
      [apply emits_serializeNote|apply emits_ret]. }
  eapply emits_bind.
  { apply emits_if with (calls2 := []); intros _;
      [apply emits_serializeNote|apply emits_ret]. }
  apply emits_call.
Qed.

(** *** The field left by an earlier run *)

(** [serializeMessage] overwrites the field before it reads it. *)
Lemma serializeMessage_resets message s :
  serializeMessage extractIcuPlaceholders message s =
  serializeMessage extractIcuPlaceholders message (mkState 0 (xml s)).
Proof. reflexivity. Qed.

Lemma blind_serializeMessage message :
  CounterBlind (serializeMessage extractIcuPlaceholders message).
Proof.
  intros s1 s2 H.
  rewrite (serializeMessage_resets message s1), (serializeMessage_resets message s2), H.
  apply sameXml_refl.
Qed.

Lemma blind_serializeUnit id message : CounterBlind (serializeUnit id message).
Proof.
  unfold Xliff2.serializeUnit.
  apply blind_bind; [apply blind_call|intros _].
  apply blind_bind; [|intros _].
  { apply blind_if; [|apply blind_ret].
    apply blind_bind; [apply blind_call|intros _].
    apply blind_bind; [|intros _].
    { destruct (location message); [apply blind_serializeNote|apply blind_ret]. }
    apply blind_bind; [|intros _].
    { apply blind_if; [apply blind_serializeNote|apply blind_ret]. }
    apply blind_bind; [|intros _].
    { apply blind_if; [apply blind_serializeNote|apply blind_ret]. }
    apply blind_call. }
  apply blind_bind; [apply blind_call|intros _].
  apply blind_bind; [apply blind_call|intros _].
  apply blind_bind; [apply blind_serializeMessage|intros _].
  repeat (apply blind_bind; [|intros _]); apply blind_call.
Qed.

Lemma blind_serializeMessages messages : forall ids,
  CounterBlind (serializeMessages ids messages).
Proof.
  induction messages as [|message rest IH]; intros ids; simpl; [apply blind_ret|].
  destruct (bool_decide _); [apply IH|].
  apply blind_bind; [apply blind_serializeUnit|intros _; apply IH].
Qed.

(** X8: what [serialize] writes and returns does not depend on the value an
    earlier call left in [currentPlaceholderId]: serializers that differ only
    in that field write the same file for the same messages, and raise on the
    same messages. *)
Theorem serialize_ignores_previous_run (messages : list ParsedMessage) (n n' : N) :
  serializeCalls messages n = serializeCalls messages n'
  /\ serialize sourceLocale basePath useLegacyIds relative extractIcuPlaceholders
       toString messages n =
     serialize sourceLocale basePath useLegacyIds relative extractIcuPlaceholders
       toString messages n'.
Proof.
  assert (H : serializeCalls messages n = serializeCalls messages n').
  { unfold Xliff2.serializeCalls, run.
    match goal with
    | |- match ?c _ with _ => _ end = _ => assert (Hb : CounterBlind c)
    end.
    { apply blind_bind; [apply blind_call|intros _].
      apply blind_bind; [apply blind_call|intros _].
      apply blind_bind; [apply blind_serializeMessages|intros _].
      apply blind_bind; [apply blind_call|intros _; apply blind_call]. }
    specialize (Hb (mkState n []) (mkState n' []) eq_refl).
    unfold sameXml in Hb.
    repeat match goal with
    | H : match ?x with _ => _ end |- _ => destruct x as [[[] ?]|]
    end; try done.
    destruct Hb as [_ ->]. done. }
  split; [done|]. unfold serialize. by rewrite H.
Qed.

(** *** Messages whose id has been seen *)

Lemma serializeMessages_app messages : forall messages' ids s,
  serializeMessages ids (messages ++ messages') s =
  match serializeMessages ids messages s with
  | Some (_, s') =>
      serializeMessages (list_to_set (map (getMessageId useLegacyIds) messages) ∪ ids)
        messages' s'
  | None => None
  end.
Proof.
  induction messages as [|message rest IH]; intros messages' ids s.
  - simpl. by rewrite (left_id_L ∅ (∪)).
  - simpl. destruct (bool_decide_reflect (getMessageId useLegacyIds message ∈ ids))
      as [Hin|Hnin].
    + rewrite IH. destruct (serializeMessages ids rest s) as [[[] s']|]; [|done].
      f_equal. by apply union_seen.
    + unfold mbind, M_bind.
      destruct (serializeUnit _ message s) as [[[] s1]|]; [|done].
      rewrite IH. destruct (serializeMessages _ rest s1) as [[[] s']|]; [|done].
      f_equal. apply union_new.
Qed.

Lemma serializeMessages_seen messages : forall ids s,
  (forall m, In m messages -> getMessageId useLegacyIds m ∈ ids) ->
  serializeMessages ids messages s = Some (tt, s).
Proof.
  induction messages as [|message rest IH]; intros ids s H; [done|].
  simpl. rewrite bool_decide_eq_true_2 by (apply H; by left).
  apply IH. intros m Hm. apply H. by right.
Qed.

(** X9: messages added at the end of the input change nothing when each of
    them has the id of a message already in the input: [serialize] makes the
    same calls, and it does not even raise when a message added is one that
    [serializeMessage] cannot write. *)
Theorem serialize_skips_repeated_ids (messages repeated : list ParsedMessage) (n : N) :
  (forall m, In m repeated ->
     In (getMessageId useLegacyIds m) (map (getMessageId useLegacyIds) messages)) ->
  serializeCalls (messages ++ repeated) n = serializeCalls messages n.
Proof.
  intros H. unfold Xliff2.serializeCalls, run, mbind, M_bind, call.
  cbn [xml currentPlaceholderId].
  rewrite serializeMessages_app.
  destruct (serializeMessages ∅ messages _) as [[[] s']|]; [|done].
  rewrite serializeMessages_seen; [done|].
  intros m Hm. apply elem_of_union_l, elem_of_list_to_set, list_elem_of_In. by apply H.
Qed.

Lemma serializeMessages_rendered messages : forall ids s,
  serializeMessages ids messages s =
  serializeMessages ids (renderedMessages useLegacyIds ids messages) s.
Proof.
  induction messages as [|message rest IH]; intros ids s; simpl; [done|].
  destruct (bool_decide_reflect (getMessageId useLegacyIds message ∈ ids)) as [Hin|Hnin];
    [apply IH|].
  simpl. rewrite bool_decide_eq_false_2 by done.
  unfold mbind, M_bind.
  destruct (serializeUnit _ message s) as [[[] s1]|]; [|done].
  apply IH.
Qed.

(** X10: [serialize] gives the same result on a list of messages and on the
    list of its first occurrences, that is, the list with every message
    removed whose id is the id of an earlier message. *)
Theorem serialize_first_occurrences (messages : list ParsedMessage) (n : N) :
  serializeCalls messages n =
  serializeCalls (renderedMessages useLegacyIds ∅ messages) n.
Proof.
  unfold Xliff2.serializeCalls, run.
  erewrite !(bind_emits _ _ _ _ _ _ _ (emits_call _ n)).
  unfold mbind at 1 3, M_bind at 1 3.
  by rewrite <- serializeMessages_rendered.
Qed.

(** *** Failure *)

Lemma serializeUnit_fails id message s :
  serializeUnit id message s = None <->
  serializeMessage extractIcuPlaceholders message (mkState 0 []) = None.
Proof.
  destruct s as [n xs]. unfold Xliff2.serializeUnit.
  erewrite (bind_emits _ _ _ _ _ _ _ (emits_call _ n)).
  erewrite (bind_emits _ _ _ _ _ _ _ (emits_notes message n)).
  erewrite (bind_emits _ _ _ _ _ _ _ (emits_call _ n)).
  erewrite (bind_emits _ _ _ _ _ _ _ (emits_call _ n)).
  unfold mbind at 1, M_bind at 1.
  match goal with
  | |- context [serializeMessage _ _ ?s] =>
      pose proof (serializeMessage_fails extractIcuPlaceholders message s) as Hm;
      destruct (serializeMessage extractIcuPlaceholders message s) as [[[] [n1 xs1]]|]
  end.
  - erewrite (bind_emits _ _ _ _ _ _ _ (emits_call _ n1)).
    erewrite (bind_emits _ _ _ _ _ _ _ (emits_call _ n1)).
    split; [done|]. intros H. by apply Hm in H.
  - split; [intros _; by apply Hm|done].
Qed.

Lemma serializeMessages_fails messages : forall ids s,
  serializeMessages ids messages s = None <->
  exists m, In m (renderedMessages useLegacyIds ids messages)
            /\ serializeMessage extractIcuPlaceholders m (mkState 0 []) = None.
Proof.
  induction messages as [|message rest IH]; intros ids s; simpl.
  - split; [done|]. by intros (m & [] & _).
  - destruct (bool_decide _); [apply IH|].
    unfold mbind, M_bind.
    pose proof (serializeUnit_fails (getMessageId useLegacyIds message) message s) as Hu.
    destruct (serializeUnit _ message s) as [[[] s1]|].
    + rewrite IH. split.
      * intros (m & Hm & Hf). exists m. split; [by right|done].
      * intros (m & [<-|Hm] & Hf); [|by exists m].
        apply Hu in Hf. done.
    + split; [|done]. intros _. exists message. split; [by left|by apply Hu].
Qed.

Lemma serializeMessage_names_missing (message : ParsedMessage) (s : State) :
  (S (length (placeholderNames message)) < length (messageParts message))%nat ->
  serializeMessage extractIcuPlaceholders message s = None.
Proof.
  intros H. unfold serializeMessage.
  unfold mbind at 1, M_bind at 1. simpl.
  unfold mbind at 1, M_bind at 1.
  rewrite forLoop_fails; [done|lia|lia].
Qed.

(** X11: one message with fewer placeholder names than gaps between its
    message parts makes the whole call fail: [serialize] raises, and returns
    no file, when such a message is among the messages it renders, the first
    occurrences of the ids. *)
Theorem serialize_fails_on_missing_names (messages : list ParsedMessage)
    (message : ParsedMessage) (n : N) :
  In message (renderedMessages useLegacyIds ∅ messages) ->
  (S (length (placeholderNames message)) < length (messageParts message))%nat ->
  serializeCalls messages n = None
  /\ serialize sourceLocale basePath useLegacyIds relative extractIcuPlaceholders
       toString messages n = None.
Proof.
  intros Hin Hnames.
  assert (Hcalls : serializeCalls messages n = None).
  { unfold Xliff2.serializeCalls, run.
    erewrite (bind_emits _ _ _ _ _ _ _ (emits_call _ n)).
    erewrite (bind_emits _ _ _ _ _ _ _ (emits_call _ n)).
    unfold mbind at 1, M_bind at 1.
    match goal with
    | |- context [serializeMessages ?ids messages ?s] =>
        assert (Hfail : serializeMessages ids messages s = None)
    end.
    { apply serializeMessages_fails. exists message. split; [done|].
      by apply serializeMessage_names_missing. }
    by rewrite Hfail. }
  split; [done|]. unfold serialize. by rewrite Hcalls.
Qed.

(** *** Units *)

Hypothesis pieces_nonempty : forall text, extractIcuPlaceholders text <> [].

(** X12: for a message whose [START_*]/[CLOSE_*] placeholders are properly
    nested pairs, [serializeUnit] returns, the [XmlFile] takes its calls and
    every element of the unit is closed.  The unit has no [<note>] at all, not
    even the location, when the message has neither a meaning nor a
    description (absent or empty); otherwise its notes are, in this order, the
    location if the message has one, the description if it is not empty and
    the meaning if it is not empty. *)
Theorem serializeUnit_notes (id : string) (message : ParsedMessage) (n : N) :
  wellFormed message ->
  properlyNested [] (writtenPlaceholders extractIcuPlaceholders message) = true ->
  exists calls n',
    Emits (serializeUnit id message) n tt n' calls
    /\ (forall open, openElements open calls = Some open)
    /\ noteCategories calls =
       if Js.truthy (Js.ofOption (meaning message))
          || Js.truthy (Js.ofOption (description message))
       then
         ((if bool_decide (location message <> None) then ["location"] else [])
            ++ (if Js.truthy (Js.ofOption (description message))
                then ["description"] else [])
            ++ (if Js.truthy (Js.ofOption (meaning message)) then ["meaning"] else []))%list
       else [].
Proof.
  intros Hwf Hnested.
  exists (unitCallsOf basePath relative extractIcuPlaceholders id message),
         (snd (messageCalls extractIcuPlaceholders message)).
  split; [by apply emits_serializeUnit|].
  split; [intros open; by apply openElements_unitCallsOf|].
  unfold unitCallsOf.
  change (noteCategories (?c :: ?l)) with (noteCategories l).
  rewrite !noteCategories_app.
  rewrite (noteCategories_alternates _
             (messageCalls_alternates extractIcuPlaceholders message)).
  change (noteCategories [_; _]) with (@nil string).
  change (noteCategories [_; _; _]) with (@nil string).
  rewrite !app_nil_r. unfold notesCalls, Js.or.
  destruct (Js.truthy (Js.ofOption (meaning message))) eqn:Em; simpl;
    destruct (Js.truthy (Js.ofOption (description message))) eqn:Ed; simpl; rewrite ?Em;
    destruct (location message); done.
Qed.

(** X13: when the [START_*]/[CLOSE_*] placeholders of every message are
    properly nested pairs, the calls [serialize] makes on the [XmlFile] are
    those of a well-nested document: every [endTag] names the innermost
    element that is still open, and nothing is left open at the end. *)
Theorem serialize_well_nested (messages : list ParsedMessage) (n : N) :
  Forall wellFormed messages ->
  Forall (fun m => properlyNested [] (writtenPlaceholders extractIcuPlaceholders m) = true)
    messages ->
  exists calls,
    serializeCalls messages n = Some calls /\ openElements [] calls = Some [].
Proof.
  intros Hwf Hn.
  destruct (emits_serializeMessages basePath useLegacyIds relative extractIcuPlaceholders
              pieces_nonempty messages ∅ n Hwf) as [n' He].
  set (rendered := renderedMessages useLegacyIds ∅ messages) in *.
  assert (Hsub : sublist rendered messages) by apply renderedMessages_sublist.
  exists (prologue sourceLocale
            ++ flat_map (unitCalls basePath useLegacyIds relative extractIcuPlaceholders)
                 rendered
            ++ epilogue)%list.
  split.
  - unfold Xliff2.serializeCalls, run, mbind, M_bind.
    rewrite (emits_call _ n []). rewrite (emits_call _ n). rewrite (He _).
    rewrite (emits_call _ n'). rewrite (emits_call _ n').
    simpl. by rewrite <- !app_assoc.
  - change (openElements [] (prologue sourceLocale ++ ?l))
      with (openElements ["file"; "xliff"] l).
    rewrite (openElements_app _ _ _ ["file"; "xliff"]); [done|].
    apply (openElements_units basePath useLegacyIds relative extractIcuPlaceholders
             pieces_nonempty).
    + rewrite Forall_forall in Hwf |- *. intros m Hm. apply Hwf.
      eapply elem_of_sublist; [exact Hm|apply Hsub].
    + rewrite Forall_forall in Hn |- *. intros m Hm. apply Hn.
      eapply elem_of_sublist; [exact Hm|apply Hsub].
Qed.

End File.

(** X11 on [boldMessage] followed by a message with three parts and one
    placeholder name. *)
Lemma serialize_fails_on_missing_names_witness :
  serializeCalls "en" "/" false (fun _ f => f) (fun text => [text])
    [boldMessage; messageWithTooFewNames] 0 = None
  /\ serialize "en" "/" false (fun _ f => f) (fun text => [text]) (fun _ => "")
       [boldMessage; messageWithTooFewNames] 0 = None.
Proof.
  apply (serialize_fails_on_missing_names "en" "/" false (fun _ f => f)
           (fun text => [text]) (fun _ => "")
           [boldMessage; messageWithTooFewNames] messageWithTooFewNames 0).
  - right. left. reflexivity.
  - simpl. lia.
Defined.

(** X9 on [boldMessage] followed by two messages with its id, the second of
    which has too few placeholder names. *)
Lemma serialize_skips_repeated_ids_witness :
  serializeCalls "en" "/" false (fun _ f => f) (fun text => [text])
    ([boldMessage] ++ [repeatedMessage; messageWithoutNames]) 0 =
  serializeCalls "en" "/" false (fun _ f => f) (fun text => [text]) [boldMessage] 0.
Proof.
  apply (serialize_skips_repeated_ids "en" "/" false (fun _ f => f) (fun text => [text])
           [boldMessage] [repeatedMessage; messageWithoutNames] 0).
  intros m [<-|[<-|[]]]; left; reflexivity.
Defined.

(** X12 on a message with a location and a description but no meaning. *)
Lemma serializeUnit_notes_witness :
  exists calls n',
    Emits (serializeUnit "/" (fun _ f => f) (fun text => [text]) "5" describedMessage)
      0 tt n' calls
    /\ (forall open, openElements open calls = Some open)
    /\ noteCategories calls = ["location"; "description"].
Proof.
  apply (serializeUnit_notes "/" (fun _ f => f) (fun text => [text]) ltac:(done)
           "5" describedMessage 0).
  - reflexivity.
  - reflexivity.
Defined.

(** X13 on [boldMessage] and a message repeating its id. *)
Lemma serialize_well_nested_witness :
  exists calls,
    serializeCalls "en" "/" false (fun _ f => f) (fun text => [text])
      [boldMessage; repeatedMessage] 0 = Some calls
    /\ openElements [] calls = Some [].
Proof.
  apply (serialize_well_nested "en" "/" false (fun _ f => f) (fun text => [text])
           ltac:(done) [boldMessage; repeatedMessage] 0).
  - repeat constructor.
  - repeat constructor.
Defined.

End Xliff2OutputFacts.

(** * Properties of the test helper [parse] *)

Module HybridVisitorSpecFacts.

Import HybridVisitorSpec.

Lemma indexOf_range (template : string) (c : ascii) :
  -1 <= indexOf template c < Z.of_nat (String.length template).
Proof.
  induction template as [|x rest IH]; simpl; [lia|].
  destruct (Ascii.eqb x c); [lia|].
  destruct (Z.ltb_spec (indexOf rest c) 0); lia.
Qed.

Lemma indexOf_absent (template : string) (c : ascii) :
  indexOf template c < 0 <-> ~ In c (list_ascii_of_string template).
Proof.
  induction template as [|x rest IH]; simpl; [split; [tauto|lia]|].
  destruct (Ascii.eqb_spec x c) as [->|Hne].
  - split; [lia|]. intros H. contradict H. by left.
  - pose proof (indexOf_range rest c) as Hr.
    destruct (Z.ltb_spec (indexOf rest c) 0) as [Hlt|Hge].
    + split; [|lia]. intros _ [E|Hin]; [done|]. by apply IH in Hin.
    + split; [lia|]. intros H. exfalso. apply H. right.
      destruct (in_dec ascii_dec c (list_ascii_of_string rest)) as [Hin|Hnin]; [done|].
      apply IH in Hnin. lia.
Qed.

Lemma indexOf_first (before after : string) (c : ascii) :
  ~ In c (list_ascii_of_string before) ->
  indexOf (before +:+ String c after) c = Z.of_nat (String.length before).
Proof.
  induction before as [|x before IH]; simpl; intros H.
  - by rewrite Ascii.eqb_refl.
  - destruct (Ascii.eqb_spec x c) as [->|Hne]; [contradict H; by left|].
    rewrite IH by (intros Hin; apply H; by right).
    destruct (Z.ltb_spec (Z.of_nat (String.length before)) 0); lia.
Qed.

Lemma removeFirst_first (before after : string) (c : ascii) :
  ~ In c (list_ascii_of_string before) ->
  removeFirst (before +:+ String c after) c = before +:+ after.
Proof.
  induction before as [|x before IH]; simpl; intros H.
  - by rewrite Ascii.eqb_refl.
  - destruct (Ascii.eqb_spec x c) as [->|Hne]; [contradict H; by left|].
    rewrite IH; [done|]. intros Hin. apply H. by right.
Qed.

Section Parse.

Variable ParsedTemplate : Type.
Variable parseTemplate : string -> string -> ParsedTemplate.

(** X14: [parse] throws exactly when the template does not contain the cursor
    character. *)
Theorem parse_throws_iff (template : string) :
  parse ParsedTemplate parseTemplate template = None <->
  ~ In cursor (list_ascii_of_string template).
Proof.
  unfold parse. rewrite <- indexOf_absent.
  destruct (Z.ltb_spec (indexOf template cursor) 0); split; done || lia.
Qed.

(** X15: for a template made of a text without cursor, the cursor and any
    text, [parse] returns the position just after the first text and hands
    [parseTemplate] the two texts joined, with the url [/foo]: only the first
    cursor is removed and the position is its offset in the template parsed. *)
Theorem parse_cursor (before after : string) :
  ~ In cursor (list_ascii_of_string before) ->
  parse ParsedTemplate parseTemplate (before +:+ String cursor after) =
  Some (mkParseResult ParsedTemplate
          (parseTemplate (before +:+ after) "/foo")
          (Z.of_nat (String.length before))).
Proof.
  intros H. unfold parse. rewrite indexOf_first, removeFirst_first by done.
  destruct (Z.ltb_spec (Z.of_nat (String.length before)) 0); [lia|done].
Qed.

End Parse.

(** X15 on the template [<di¦v></div>] of the test-suite, with the identity
    in place of the parser. *)
Lemma parse_cursor_witness :
  parse string (fun template _ => template) ("<di" +:+ String cursor "v></div>") =
  Some (mkParseResult string "<div></div>" 3).
Proof.
  apply (parse_cursor string (fun template _ => template) "<di" "v></div>").
  vm_compute. intros H. repeat (destruct H as [H|H]; [discriminate H|]). exact H.
Defined.

End HybridVisitorSpecFacts.
